(** * obsidian-claude-code: settings utilities, sub-agent discovery,
      host commands and the ACP session engine

    A shallow embedding of the TypeScript sources
    ([shared/settings-utils], [plugin], [adapters/obsidian/subagent-service])
    together with the protocol engine described in the design document.

    Layout: Part I holds the definitions, Part II the lemmas and theorems,
    Part III further properties of the sources. *)

From stdpp Require Import gmap list strings.
From Stdlib Require Import NArith ZArith Lia.

Local Open Scope N_scope.
#[local] Set Warnings "-register-all".

(* ===================================================================== *)
(** * Part I - definitions                                                *)
(* ===================================================================== *)

(** ** JavaScript strings

    A JavaScript string is a finite sequence of UTF-16 code units.  All
    the characters the sources test for (white space, line terminators,
    [":"], ["-"], ["="]) live in the Basic Multilingual Plane, so working
    on code units is exact. *)

Abbreviation jsstring := (list N).

(** ASCII literals: each character is its own code unit. *)
Definition lit (s : string) : jsstring :=
  Ascii.N_of_ascii <$> String.list_ascii_of_string s.

Definition LF : N := 10.
Definition CR : N := 13.

(** ECMAScript [WhiteSpace] and [LineTerminator] code points: the set
    stripped by [String.prototype.trim] and matched by the regex class
    [\s]. *)
Definition isWhiteSpace (c : N) : bool :=
  (c =? 9) || (c =? 10) || (c =? 11) || (c =? 12) || (c =? 13) ||
  (c =? 32) || (c =? 160) || (c =? 5760) ||
  ((8192 <=? c) && (c <=? 8202)) ||
  (c =? 8232) || (c =? 8233) || (c =? 8239) || (c =? 8287) ||
  (c =? 12288) || (c =? 65279).

Fixpoint trimStart (s : jsstring) : jsstring :=
  match s with
  | [] => []
  | c :: rest => if isWhiteSpace c then trimStart rest else s
  end.

Definition trimEnd (s : jsstring) : jsstring :=
  rev (trimStart (rev s)).

(** [s.trim()] *)
Definition trim (s : jsstring) : jsstring :=
  trimEnd (trimStart s).

(** [s.length > 0] *)
Definition nonEmpty (s : jsstring) : bool :=
  match s with [] => false | _ :: _ => true end.

(** [l.length > 0] for an array *)
Definition nonEmptyList {A} (l : list A) : bool :=
  match l with [] => false | _ :: _ => true end.

(** [s.startsWith(p)] *)
Fixpoint startsWith (p s : jsstring) : bool :=
  match p, s with
  | [], _ => true
  | _ :: _, [] => false
  | a :: p', b :: s' => (a =? b) && startsWith p' s'
  end.

(** [s.endsWith(p)] *)
Definition endsWith (p s : jsstring) : bool :=
  startsWith (rev p) (rev s).

(** [s.split(/\r?\n/)]: the separator is a line feed together with the
    carriage return right before it, when there is one.  The result always
    has at least one piece. *)
Fixpoint splitLines (s : jsstring) : list jsstring :=
  match s with
  | [] => [[]]
  | c :: rest =>
      let pieces := splitLines rest in
      if c =? LF then [] :: pieces
      else if (c =? CR) && startsWith [LF] rest then pieces
      else match pieces with
           | p :: ps => (c :: p) :: ps
           | [] => [[c]]
           end
  end.

(** [s.split("\n")] *)
Fixpoint splitLF (s : jsstring) : list jsstring :=
  match s with
  | [] => [[]]
  | c :: rest =>
      let pieces := splitLF rest in
      if c =? LF then [] :: pieces
      else match pieces with
           | p :: ps => (c :: p) :: ps
           | [] => [[c]]
           end
  end.

(** ** JavaScript values

    The values a caller can pass where the sources say [unknown].  A number
    is its IEEE-754 binary64 bit pattern.  An object lists its own
    enumerable string-keyed properties in enumeration order (the order of
    [Object.entries]); its prototype is [Object.prototype], which defines
    none of the property names the sources read. *)
Inductive JSValue : Type :=
| JUndefined
| JNull
| JBool (b : bool)
| JNumber (bits : N)
| JBigInt (z : Z)
| JSymbol (tag : N)
| JFunction (tag : N)
| JString (s : jsstring)
| JArray (items : list JSValue)
| JObject (props : list (jsstring * JSValue)).

(** ToBoolean *)
Definition truthy (v : JSValue) : bool :=
  match v with
  | JUndefined | JNull => false
  | JBool b => b
  | JNumber bits =>
      let magnitude := N.land bits 9223372036854775807 in
      negb (magnitude =? 0) && (magnitude <=? 9218868437227405312)
  | JBigInt z => negb (z =? 0)%Z
  | JSymbol _ | JFunction _ => true
  | JString s => nonEmpty s
  | JArray _ | JObject _ => true
  end.

(** [name in o ? o[name] : undefined] for an object [o] given by its own
    properties. *)
Fixpoint ownProp (name : jsstring) (props : list (jsstring * JSValue)) : JSValue :=
  match props with
  | [] => JUndefined
  | (k, v) :: rest => if bool_decide (k = name) then v else ownProp name rest
  end.

(** Property read [v.name] for the names the sources use ([claude],
    [command], [args], [env], ...): none of them exists on a primitive, on
    an array or on [Object.prototype]. *)
Definition getProp (name : jsstring) (v : JSValue) : JSValue :=
  match v with
  | JObject props => ownProp name props
  | _ => JUndefined
  end.

(** ** shared/settings-utils *)

(** [sanitizeArgs]: an array keeps its string items trimmed (anything else
    counts as the empty string), a string is split into lines; both drop
    the empty results.  Every other value gives the empty list. *)
Definition sanitizeArgs (value : JSValue) : list jsstring :=
  match value with
  | JArray items =>
      List.filter nonEmpty
        (List.map (fun item => match item with
                               | JString s => trim s
                               | _ => []
                               end) items)
  | JString s =>
      List.filter nonEmpty (List.map trim (splitLines s))
  | _ => []
  end.

Record AgentEnvVar : Type := mkEnvVar { key : jsstring; value : jsstring }.

(** The guarded [pairs.push] shared by both loops of [normalizeEnvVars]:
    a pair is produced when the key is a string with a non-empty trim; a
    value that is not a string becomes the empty string. *)
Definition pushPair (k v : JSValue) : option AgentEnvVar :=
  match k with
  | JString ks =>
      if nonEmpty (trim ks)
      then Some {| key := trim ks;
                   value := match v with JString vs => vs | _ => [] end |}
      else None
  | _ => None
  end.

(** The first half of [normalizeEnvVars]: the [pairs] collected from an
    array of entries or from the entries of a plain object. *)
Definition collectPairs (v : JSValue) : list AgentEnvVar :=
  if negb (truthy v) then []
  else match v with
       | JArray entries =>
           omap (fun entry =>
                   match entry with
                   | JObject props =>
                       pushPair (ownProp (lit "key") props)
                                (ownProp (lit "value") props)
                   | _ => None
                   end) entries
       | JObject props =>
           omap (fun kv => pushPair (JString kv.1) kv.2) props
       | _ => []
       end.

(** The closing [pairs.filter] with its [seen] set threaded through. *)
Fixpoint dedupe (seen : gset jsstring) (pairs : list AgentEnvVar) : list AgentEnvVar :=
  match pairs with
  | [] => []
  | p :: rest =>
      if bool_decide (key p ∈ seen) then dedupe seen rest
      else p :: dedupe ({[ key p ]} ∪ seen) rest
  end.

Definition normalizeEnvVars (v : JSValue) : list AgentEnvVar :=
  dedupe ∅ (collectPairs v).

(** An [AgentEnvVar] as the JavaScript object [{key, value}]. *)
Definition envVarObject (e : AgentEnvVar) : JSValue :=
  JObject [(lit "key", JString (key e)); (lit "value", JString (value e))].

Definition envVarArray (entries : list AgentEnvVar) : JSValue :=
  JArray (envVarObject <$> entries).

(** First entry of a list of pairs with the given key. *)
Definition firstWithKey (k : jsstring) (pairs : list AgentEnvVar) : option AgentEnvVar :=
  List.find (fun p => bool_decide (key p = k)) pairs.


(** ** Plain objects used as string maps

    [toAgentConfig] and [parseFrontmatter] fill an object created by [{}]
    with string values.  Such an object is a finite map from property names
    to strings, with one exception that comes with the prototype of [{}]:
    an assignment to the name [__proto__] runs the inherited setter, which
    ignores a value that is neither an object nor [null] and creates no own
    property. *)

Definition protoName : jsstring := lit "__proto__".

(** [obj[k] = v] for a string [v] *)
Definition assignString (k v : jsstring) (obj : gmap jsstring jsstring) : gmap jsstring jsstring :=
  if bool_decide (k = protoName) then obj else <[k := v]> obj.

(** ** domain/models/agent-config and domain/ports/agent-client.port

    The record types, as [DEFAULT_SETTINGS] and [toAgentConfig] use them. *)

Module BaseAgentSettings.
Record t : Type := mk {
  id : jsstring;
  displayName : jsstring;
  command : jsstring;
  args : list jsstring;
  env : list AgentEnvVar
}.
End BaseAgentSettings.

Module ClaudeAgentSettings.
Record t : Type := mk {
  id : jsstring;
  displayName : jsstring;
  apiKey : jsstring;
  command : jsstring;
  args : list jsstring;
  env : list AgentEnvVar
}.
(** [ClaudeAgentSettings] extends [BaseAgentSettings]. *)
Definition asBase (s : t) : BaseAgentSettings.t :=
  BaseAgentSettings.mk (id s) (displayName s) (command s) (args s) (env s).
End ClaudeAgentSettings.

Module AgentConfig.
Record t : Type := mk {
  id : jsstring;
  displayName : jsstring;
  command : jsstring;
  args : list jsstring;
  env : gmap jsstring jsstring;
  workingDirectory : jsstring
}.
End AgentConfig.

(** [toAgentConfig]: the [reduce] over [settings.env] assigns every pair
    into one accumulator object, in order. *)
Definition toAgentConfig (settings : BaseAgentSettings.t) (workingDirectory : jsstring) : AgentConfig.t :=
  let env :=
    foldl (fun acc e => assignString (key e) (value e) acc) ∅
          (BaseAgentSettings.env settings) in
  AgentConfig.mk (BaseAgentSettings.id settings)
                 (BaseAgentSettings.displayName settings)
                 (BaseAgentSettings.command settings)
                 (BaseAgentSettings.args settings)
                 env
                 workingDirectory.

(** ** plugin: settings *)

Module ExportSettings.
Record t : Type := mk {
  defaultFolder : jsstring;
  filenameTemplate : jsstring;
  autoExportOnNewChat : bool;
  autoExportOnCloseChat : bool;
  openFileAfterExport : bool
}.
End ExportSettings.

Module AgentClientPluginSettings.
Record t : Type := mk {
  claude : ClaudeAgentSettings.t;
  autoAllowPermissions : bool;
  autoMentionActiveNote : bool;
  debugMode : bool;
  nodePath : jsstring;
  exportSettings : ExportSettings.t;
  windowsWslMode : bool;
  windowsWslDistribution : option jsstring
}.
End AgentClientPluginSettings.

Definition DEFAULT_SETTINGS : AgentClientPluginSettings.t :=
  AgentClientPluginSettings.mk
    (ClaudeAgentSettings.mk (lit "claude-code-acp") (lit "Claude Code") [] [] [] [])
    false true false []
    (ExportSettings.mk (lit "Agent Client") (lit "agent_client_{date}_{time}")
                       false false true)
    false None.

(** [typeof v === "string" && v.trim().length > 0 ? Some (v.trim()) : None] *)
Definition nonBlankString (v : JSValue) : option jsstring :=
  match v with
  | JString s => if nonEmpty (trim s) then Some (trim s) else None
  | _ => None
  end.

(** [typeof v === "boolean" ? v : dflt] *)
Definition booleanOr (dflt : bool) (v : JSValue) : bool :=
  match v with JBool b => b | _ => dflt end.

(** [typeof v === "string" ? v : dflt] *)
Definition stringOr (dflt : jsstring) (v : JSValue) : jsstring :=
  match v with JString s => s | _ => dflt end.

(** [typeof v === "object" && v !== null] *)
Definition isObjectLike (v : JSValue) : bool :=
  match v with JObject _ | JArray _ => true | _ => false end.

(** [loadSettings], as a function of what [loadData] resolved to. *)
Definition loadSettings (data : JSValue) : AgentClientPluginSettings.t :=
  let rawSettings := match data with
                     | JUndefined | JNull => JObject []
                     | _ => data
                     end in
  let claudeFromRaw := if isObjectLike (getProp (lit "claude") rawSettings)
                       then getProp (lit "claude") rawSettings
                       else JObject [] in
  let resolvedClaudeArgs := sanitizeArgs (getProp (lit "args") claudeFromRaw) in
  let resolvedClaudeEnv := normalizeEnvVars (getProp (lit "env") claudeFromRaw) in
  let dflt := DEFAULT_SETTINGS in
  let dfltClaude := AgentClientPluginSettings.claude dflt in
  let dfltExport := AgentClientPluginSettings.exportSettings dflt in
  AgentClientPluginSettings.mk
    (ClaudeAgentSettings.mk
       (ClaudeAgentSettings.id dfltClaude)
       (match nonBlankString (getProp (lit "displayName") claudeFromRaw) with
        | Some name => name
        | None => ClaudeAgentSettings.displayName dfltClaude
        end)
       (stringOr (ClaudeAgentSettings.apiKey dfltClaude)
                 (getProp (lit "apiKey") claudeFromRaw))
       (match nonBlankString (getProp (lit "command") claudeFromRaw) with
        | Some cmd => cmd
        | None =>
            match nonBlankString (getProp (lit "claudeCodeAcpCommandPath") rawSettings) with
            | Some path => path
            | None => ClaudeAgentSettings.command dfltClaude
            end
        end)
       (if nonEmptyList resolvedClaudeArgs then resolvedClaudeArgs else [])
       (if nonEmptyList resolvedClaudeEnv then resolvedClaudeEnv else []))
    (booleanOr (AgentClientPluginSettings.autoAllowPermissions dflt)
               (getProp (lit "autoAllowPermissions") rawSettings))
    (booleanOr (AgentClientPluginSettings.autoMentionActiveNote dflt)
               (getProp (lit "autoMentionActiveNote") rawSettings))
    (booleanOr (AgentClientPluginSettings.debugMode dflt)
               (getProp (lit "debugMode") rawSettings))
    (match getProp (lit "nodePath") rawSettings with
     | JString s => trim s
     | _ => AgentClientPluginSettings.nodePath dflt
     end)
    (let rawExport := getProp (lit "exportSettings") rawSettings in
     if isObjectLike rawExport
     then ExportSettings.mk
            (stringOr (ExportSettings.defaultFolder dfltExport)
                      (getProp (lit "defaultFolder") rawExport))
            (stringOr (ExportSettings.filenameTemplate dfltExport)
                      (getProp (lit "filenameTemplate") rawExport))
            (booleanOr (ExportSettings.autoExportOnNewChat dfltExport)
                       (getProp (lit "autoExportOnNewChat") rawExport))
            (booleanOr (ExportSettings.autoExportOnCloseChat dfltExport)
                       (getProp (lit "autoExportOnCloseChat") rawExport))
            (booleanOr (ExportSettings.openFileAfterExport dfltExport)
                       (getProp (lit "openFileAfterExport") rawExport))
     else dfltExport)
    (booleanOr (AgentClientPluginSettings.windowsWslMode dflt)
               (getProp (lit "windowsWslMode") rawSettings))
    (match getProp (lit "windowsWslDistribution") rawSettings with
     | JString s => Some s
     | _ => AgentClientPluginSettings.windowsWslDistribution dflt
     end).

(** ** plugin: host commands

    A command callback is a straight-line program over two host effects:
    [activateView()] and [app.workspace.trigger(event)]. *)

Inductive HostEffect : Type :=
| ActivateView
| WorkspaceTrigger (event : jsstring).

Module Command.
Record t : Type := mk {
  id : jsstring;
  name : jsstring;
  callback : list HostEffect
}.
End Command.








(** ** adapters/obsidian/subagent-service *)

(** [s.indexOf(c)], [-1] when [c] does not occur. *)
Fixpoint indexOf (c : N) (s : jsstring) : Z :=
  match s with
  | [] => (-1)%Z
  | d :: rest =>
      if d =? c then 0%Z
      else let i := indexOf c rest in
           if (i <? 0)%Z then (-1)%Z else (i + 1)%Z
  end.

(** [s.slice(from, to)] and [s.slice(from)] for indices within [0, length]. *)
Definition slice (from to : Z) (s : jsstring) : jsstring :=
  take (Z.to_nat to - Z.to_nat from) (drop (Z.to_nat from) s).

Definition sliceFrom (from : Z) (s : jsstring) : jsstring :=
  drop (Z.to_nat from) s.

Definition COLON : N := 58.
Definition DASHES : jsstring := lit "---".

(** The lazy group [([\s\S]*?)] followed by the closing [\n---]: the
    shortest prefix of [s] that a line feed and three dashes follow. *)
Fixpoint beforeFence (s : jsstring) : option jsstring :=
  match s with
  | [] => None
  | c :: rest =>
      if startsWith (LF :: DASHES) s then Some []
      else cons c <$> beforeFence rest
  end.

(** [\s*\n([\s\S]*?)\n---] on what follows the opening dashes, in the order
    a backtracking matcher tries: the greedy [\s*] first takes one more
    white-space character and gives it back only when the rest fails. *)
Fixpoint afterDashes (s : jsstring) : option jsstring :=
  match s with
  | [] => None
  | c :: rest =>
      match (if isWhiteSpace c then afterDashes rest else None) with
      | Some yaml => Some yaml
      | None => if c =? LF then beforeFence rest else None
      end
  end.

(** [content.match(/^---\s*\n([\s\S]*?)\n---/)], giving [match[1]]. *)
Definition matchFrontmatter (content : jsstring) : option jsstring :=
  if startsWith DASHES content then afterDashes (drop 3 content) else None.

(** The body of the loop over the lines of the block. *)
Definition parseLine (frontmatter : gmap jsstring jsstring) (line : jsstring) : gmap jsstring jsstring :=
  let colonIndex := indexOf COLON line in
  if (0 <? colonIndex)%Z
  then assignString (trim (slice 0 colonIndex line))
                    (trim (sliceFrom (colonIndex + 1) line))
                    frontmatter
  else frontmatter.

(** [parseFrontmatter]; [None] is the [null] result. *)
Definition parseFrontmatter (content : jsstring) : option (gmap jsstring jsstring) :=
  match matchFrontmatter content with
  | None => None
  | Some yaml => Some (foldl parseLine ∅ (splitLF yaml))
  end.

Module SubAgentMetadata.
Record t : Type := mk {
  name : jsstring;
  description : jsstring;
  model : option jsstring;
  color : option jsstring;
  emoji : jsstring;
  filePath : jsstring
}.
End SubAgentMetadata.

(** The Node.js calls the service makes.  [None] stands for a thrown
    exception; [existsSync] never throws. *)
Module Node.
Record t : Type := mk {
  existsSync : jsstring -> bool;
  readdirSync : jsstring -> option (list jsstring);
  readFileSync : jsstring -> option jsstring;
  join : jsstring -> jsstring -> jsstring
}.
End Node.

(** How a call ends. *)
Inductive Completion (A : Type) : Type :=
| Returned (a : A)
| Thrown.
Arguments Returned {A} a.
Arguments Thrown {A}.

(** The emoji literal, as the source file spells it. *)
Definition SUBAGENT_EMOJI : jsstring := [240; 376; 164; 8211].

(** The test [frontmatter && frontmatter.name && frontmatter.description]
    and the record pushed when it passes. *)
Definition subAgentOf (filePath : jsstring) (frontmatter : option (gmap jsstring jsstring)) : option SubAgentMetadata.t :=
  match frontmatter with
  | None => None
  | Some fm =>
      match fm !! lit "name", fm !! lit "description" with
      | Some name, Some description =>
          if nonEmpty name && nonEmpty description
          then Some (SubAgentMetadata.mk name description
                       (fm !! lit "model") (fm !! lit "color")
                       SUBAGENT_EMOJI filePath)
          else None
      | _, _ => None
      end
  end.

(** The [for] loop over the [.md] files, with the accumulator
    [subAgents]; a failing [readFileSync] leaves the loop. *)
Fixpoint readSubAgents (node : Node.t) (agentsDir : jsstring) (files : list jsstring) (subAgents : list SubAgentMetadata.t) : Completion (list SubAgentMetadata.t) :=
  match files with
  | [] => Returned subAgents
  | file :: rest =>
      let filePath := Node.join node agentsDir file in
      match Node.readFileSync node filePath with
      | None => Thrown
      | Some content =>
          readSubAgents node agentsDir rest
            (match subAgentOf filePath (parseFrontmatter content) with
             | Some agent => subAgents ++ [agent]
             | None => subAgents
             end)
      end
  end.

(** The [try] block of [getSubAgents]. *)
Definition getSubAgentsTry (node : Node.t) (agentsDir : jsstring) : Completion (list SubAgentMetadata.t) :=
  if negb (Node.existsSync node agentsDir) then Returned []
  else match Node.readdirSync node agentsDir with
       | None => Thrown
       | Some entries =>
           readSubAgents node agentsDir
             (List.filter (endsWith (lit ".md")) entries) []
       end.

(** [getSubAgents]: the [catch] turns any exception into the empty list. *)
Definition getSubAgents (node : Node.t) (agentsDir : jsstring) : Completion (list SubAgentMetadata.t) :=
  match getSubAgentsTry node agentsDir with
  | Returned agents => Returned agents
  | Thrown => Returned []
  end.


(** ** The ACP engine

    The adapter that speaks the protocol ([adapters/acp]) is outside these
    sources; its three components below follow the design document. *)

Module Codec.

Abbreviation bytes := (list Byte.byte).

Inductive Message : Type :=
| Request (id method params : JSValue)
| Notification (method params : JSValue)
| Response (id : JSValue) (outcome : JSValue + JSValue).

Inductive ProtocolError : Type :=
| MalformedJson (line : bytes)
| MissingFields (frame : JSValue).

(** [name in frame] *)
Definition hasField (name : jsstring) (frame : JSValue) : bool :=
  match frame with
  | JObject props => existsb (fun kv => bool_decide (kv.1 = name)) props
  | _ => false
  end.

(** Modelled from the spec: the field-presence rule of the Message Codec
    (4.2), which is not among the sources.  "requests carry id+method+params;
    notifications carry method+params with no id; responses carry id+
    exactly one of result/error"; "fails with ProtocolError ... on a frame
    missing required fields". *)
Definition classify (frame : JSValue) : Message + ProtocolError :=
  let field name := getProp (lit name) frame in
  let has name := hasField (lit name) frame in
  if has "method" && has "params" then
    if has "id"
    then inl (Request (field "id") (field "method") (field "params"))
    else inl (Notification (field "method") (field "params"))
  else if has "id" && has "result" && negb (has "error")
    then inl (Response (field "id") (inl (field "result")))
  else if has "id" && has "error" && negb (has "result")
    then inl (Response (field "id") (inr (field "error")))
  else inr (MissingFields frame).

(** The decoder keeps the bytes of the incomplete trailing line. *)
Record Decoder : Type := mkDecoder { fragment : bytes }.

Definition start : Decoder := mkDecoder [].

Definition isNewline (b : Byte.byte) : bool := Byte.eqb b Byte.x0a.

(** Modelled from the spec: the line framing of [decode] (4.2), which is
    not among the sources.  "must correctly split on newlines across
    multiple non-aligned reads (buffer incomplete trailing fragments until
    the next chunk arrives)". *)
Fixpoint frames (partial chunk : bytes) : list bytes * bytes :=
  match chunk with
  | [] => ([], partial)
  | b :: rest =>
      if isNewline b
      then let '(lines, tail) := frames [] rest in (partial :: lines, tail)
      else frames (partial ++ [b]) rest
  end.

Section Decode.

(** The JSON text parser, [None] on malformed JSON. *)
Variable parseJson : bytes -> option JSValue.

(** Modelled from the spec: one complete line to one message or one
    [ProtocolError] (4.2), which is not among the sources.  "decode fails
    with ProtocolError on malformed JSON or on a frame missing required
    fields; such failures are reported ..., not silently dropped". *)
Definition decodeLine (line : bytes) : Message + ProtocolError :=
  match parseJson line with
  | None => inr (MalformedJson line)
  | Some frame => classify frame
  end.

(** Modelled from the spec: [decode(buffer)] (4.2), one delivery call;
    the codec is not among the sources.  "produces a lazy sequence of
    Message; finite per call, restartable across calls". *)
Definition decode (d : Decoder) (chunk : bytes) : list (Message + ProtocolError) * Decoder :=
  let '(lines, tail) := frames (fragment d) chunk in
  (decodeLine <$> lines, mkDecoder tail).

(** Successive delivery calls on one decoder. *)
Fixpoint deliver (d : Decoder) (chunks : list bytes) : list (Message + ProtocolError) * Decoder :=
  match chunks with
  | [] => ([], d)
  | chunk :: rest =>
      let '(out, d') := decode d chunk in
      let '(outs, d'') := deliver d' rest in
      (out ++ outs, d'')
  end.

End Decode.

End Codec.

Module Correlator.

Inductive Outcome : Type :=
| Succeeded (result : JSValue)
| Rejected (error : JSValue)
| Failed (reason : jsstring).

(** The result sink of a request is addressed by the request id: what a
    sink receives is recorded as a [Settled] event. *)
Record PendingRequest : Type := mkPending { id : N; createdAt : N }.

Record t : Type := mk { nextId : N; pending : list PendingRequest }.

Inductive Event : Type :=
| Issued (id : N)
| Settled (id : N) (outcome : Outcome)
| UnknownRequestId (id : N).

(** Modelled from the spec: the Request Correlator (4.3), which is not
    among the sources.  "Ids are assigned by an internal monotonically
    increasing counter starting at 1". *)
Definition create : t := mk 1 [].

(** Modelled from the spec: [issue(method, params) -> (id, awaitable
    result)] of the Request Correlator (4.3), not among the sources. *)
Definition issue (now : N) (c : t) : N * t :=
  (nextId c, mk (nextId c + 1) (pending c ++ [mkPending (nextId c) now])).

Definition isPending (i : N) (c : t) : bool :=
  existsb (fun p => id p =? i) (pending c).

(** Modelled from the spec: [resolve(id, result|error)] of the Request
    Correlator (4.3), not among the sources.  "matches an inbound response
    to its PendingRequest; fails with UnknownRequestId (logged, non-fatal)
    if no match exists"; the request is "removed on matching response". *)
Definition resolve (i : N) (o : Outcome) (c : t) : list Event * t :=
  if isPending i c
  then ([Settled i o],
        mk (nextId c) (List.filter (fun p => negb (id p =? i)) (pending c)))
  else ([UnknownRequestId i], c).

(** Modelled from the spec: [failAll(reason)] of the Request Correlator
    (4.3), not among the sources.  "resolves every outstanding
    PendingRequest with a failure carrying reason"; the requests are
    "removed ... on transport-closed sweep". *)
Definition failAll (reason : jsstring) (c : t) : list Event * t :=
  ((fun p => Settled (id p) (Failed reason)) <$> pending c, mk (nextId c) []).

Inductive Call : Type :=
| Issue (method : jsstring) (params : JSValue) (now : N)
| Resolve (id : N) (outcome : Outcome)
| FailAll (reason : jsstring).

Definition step (c : t) (call : Call) : list Event * t :=
  match call with
  | Issue _ _ now => let '(i, c') := issue now c in ([Issued i], c')
  | Resolve i o => resolve i o c
  | FailAll reason => failAll reason c
  end.

Fixpoint run (c : t) (calls : list Call) : list Event * t :=
  match calls with
  | [] => ([], c)
  | call :: rest =>
      let '(evs, c') := step c call in
      let '(evs', c'') := run c' rest in
      (evs ++ evs', c'')
  end.

(** The ids handed out, and the ids whose sink received something. *)
Definition issuedIds (evs : list Event) : list N :=
  omap (fun e => match e with Issued i => Some i | _ => None end) evs.

Definition settledIds (evs : list Event) : list N :=
  omap (fun e => match e with Settled i _ => Some i | _ => None end) evs.

Definition pendingIds (c : t) : list N := id <$> pending c.

End Correlator.

Module Session.

Inductive State : Type :=
| Uninitialized | Initializing | Ready | Busy | Cancelling | Closed | Errored.

Module PermissionRequest.
Record t : Type := mk {
  requestId : N;
  toolCallId : jsstring;
  options : list (jsstring * jsstring);
  resolved : bool
}.
End PermissionRequest.

Inductive TurnEndReason : Type := Completed | Cancelled | TimedOut.

Inductive StreamEvent : Type :=
| TextDelta (content : jsstring)
| ToolCallStarted (id label : jsstring)
| ToolCallUpdated (id status : jsstring)
| ToolCallEnded (id : jsstring) (result : JSValue)
| PermissionRequested (request : PermissionRequest.t)
| TurnEnded (reason : TurnEndReason)
| Error (detail : jsstring).

Inductive SessionError : Type :=
| SessionBusyError
| HandshakeError
| StalePermissionError
| InvalidStateError.

(** Modelled from the spec: the Session of the data model (3), held by the
    Session State Machine (4.4), which is not among the sources.  [turns]
    lists the request ids of the turns in flight, in the order they were
    started; the machine owns its Correlator. *)
Record t : Type := mk {
  sessionId : jsstring;
  agentConfig : AgentConfig.t;
  state : State;
  pendingPermission : option PermissionRequest.t;
  correlator : Correlator.t;
  turns : list N
}.

Definition withState (st : State) (s : t) : t :=
  mk (sessionId s) (agentConfig s) st (pendingPermission s) (correlator s) (turns s).

Definition withPermission (p : option PermissionRequest.t) (s : t) : t :=
  mk (sessionId s) (agentConfig s) (state s) p (correlator s) (turns s).

Definition withCorrelator (c : Correlator.t) (s : t) : t :=
  mk (sessionId s) (agentConfig s) (state s) (pendingPermission s) c (turns s).

Definition withTurns (ts : list N) (s : t) : t :=
  mk (sessionId s) (agentConfig s) (state s) (pendingPermission s) (correlator s) ts.

(** What a call on the machine gives back: the events it publishes, or
    the error it fails with. *)
Inductive Reply : Type :=
| Published (events : list StreamEvent)
| Failure (error : SessionError).

Definition create (sessionId : jsstring) (config : AgentConfig.t) : t :=
  mk sessionId config Uninitialized None Correlator.create [].

(** Modelled from the spec: [initialize(config)] of the Session State
    Machine (4.4), not among the sources.  "Uninitialized --initialize()-->
    Initializing"; "performs the handshake request"; "must be called at most
    once per Session". *)
Definition initialize (now : N) (s : t) : Reply * t :=
  match state s with
  | Uninitialized =>
      let '(_, c) := Correlator.issue now (correlator s) in
      (Published [], withState Initializing (withCorrelator c s))
  | _ => (Failure InvalidStateError, s)
  end.

(** Modelled from the spec: the handshake response (4.4), not among the
    sources.  "Initializing --(handshake response ok)--> Ready"; "on ...
    handshake error response, transitions to Errored and surfaces a
    HandshakeError". *)
Definition handshakeResponse (ok : bool) (s : t) : Reply * t :=
  match state s with
  | Initializing =>
      if ok then (Published [], withState Ready s)
      else (Failure HandshakeError, withState Errored s)
  | _ => (Published [], s)
  end.

(** Modelled from the spec: [sendTurn(prompt, context)] of the Session
    State Machine (4.4), not among the sources.  "only valid from Ready;
    issues a turn-start request via the Correlator ...; immediately
    transitions to Busy"; "Calling sendTurn while already Busy fails with
    SessionBusyError". *)
Definition sendTurn (prompt : jsstring) (context : JSValue) (now : N) (s : t) : Reply * t :=
  match state s with
  | Ready =>
      let '(turn, c) := Correlator.issue now (correlator s) in
      (Published [], withState Busy (withTurns (turns s ++ [turn]) (withCorrelator c s)))
  | Busy => (Failure SessionBusyError, s)
  | _ => (Failure InvalidStateError, s)
  end.

(** Modelled from the spec: [cancel()] (4.4), not among the sources.
    "only meaningful from Busy; ... transitions to Cancelling". *)
Definition cancel (s : t) : Reply * t :=
  match state s with
  | Busy => (Published [], withState Cancelling s)
  | _ => (Published [], s)
  end.

(** Modelled from the spec: the end of a turn (4.4, 5), not among the
    sources.  "Busy --(TurnEnded notification)--> Ready"; "Cancelling
    --(TurnEnded/ack)--> Ready"; after the grace period "the session is
    unconditionally returned to Ready and a TurnEnded(reason=TimedOut)
    event is synthesized locally". *)
Definition turnEnded (reason : TurnEndReason) (s : t) : Reply * t :=
  match state s with
  | Busy | Cancelling =>
      (Published [TurnEnded reason],
       withState Ready (withTurns [] (withPermission None s)))
  | _ => (Published [], s)
  end.

Definition graceElapsed (s : t) : Reply * t :=
  match state s with
  | Cancelling =>
      (Published [TurnEnded TimedOut],
       withState Ready (withTurns [] (withPermission None s)))
  | _ => (Published [], s)
  end.

(** Modelled from the spec: inbound notifications while a turn runs (4.4),
    not among the sources.  "text-delta and tool-call notifications are
    translated 1:1 into StreamEvents"; "A permission-request notification
    creates a PermissionRequest, stores it as pendingPermission, and emits
    PermissionRequested". *)
Definition streamed (e : StreamEvent) (s : t) : Reply * t :=
  match state s with
  | Busy | Cancelling =>
      match e with
      | PermissionRequested request =>
          (Published [e], withPermission (Some request) s)
      | TurnEnded reason => turnEnded reason s
      | _ => (Published [e], s)
      end
  | _ => (Published [], s)
  end.

(** Modelled from the spec: [resolvePermission(requestId, optionId)] (4.4),
    not among the sources.  "valid only when pendingPermission.requestId
    matches; ... clears pendingPermission.  Calling with a stale or unknown
    requestId fails with StalePermissionError". *)
Definition resolvePermission (requestId : N) (optionId : jsstring) (s : t) : Reply * t :=
  match pendingPermission s with
  | Some request =>
      if PermissionRequest.requestId request =? requestId
      then (Published [], withPermission None s)
      else (Failure StalePermissionError, s)
  | None => (Failure StalePermissionError, s)
  end.

(** Modelled from the spec: an inbound response (4.3, 4.4), not among the
    sources: it goes to the Correlator; an unknown id is "logged,
    non-fatal". *)
Definition response (id : N) (o : Correlator.Outcome) (s : t) : Reply * t :=
  let '(_, c) := Correlator.resolve id o (correlator s) in
  (Published [], withCorrelator c s).

(** Modelled from the spec: transport exit (4.4, 7), not among the
    sources.  "any state --(transport exit or unrecoverable protocol
    error)--> Errored"; "transport-level failures always end the current
    turn"; the Correlator fails every pending request.  [Closed] is
    terminal. *)
Definition transportExit (detail : jsstring) (s : t) : Reply * t :=
  match state s with
  | Closed => (Published [], s)
  | _ =>
      let '(_, c) := Correlator.failAll detail (correlator s) in
      (Published [Error detail],
       withState Errored (withTurns [] (withPermission None (withCorrelator c s))))
  end.

(** Modelled from the spec: [close()] (4.4), not among the sources.
    "Ready|Errored --close()--> Closed (terminal)". *)
Definition close (s : t) : Reply * t :=
  match state s with
  | Ready | Errored => (Published [], withState Closed s)
  | _ => (Failure InvalidStateError, s)
  end.

(** Everything that can happen to a session: consumer calls and inbound
    protocol events. *)
Inductive Input : Type :=
| Initialize (now : N)
| HandshakeResponse (ok : bool)
| SendTurn (prompt : jsstring) (context : JSValue) (now : N)
| Cancel
| GraceElapsed
| Inbound (e : StreamEvent)
| ResolvePermission (requestId : N) (optionId : jsstring)
| InboundResponse (id : N) (o : Correlator.Outcome)
| TransportExit (detail : jsstring)
| Close.

Definition step (s : t) (i : Input) : Reply * t :=
  match i with
  | Initialize now => initialize now s
  | HandshakeResponse ok => handshakeResponse ok s
  | SendTurn prompt context now => sendTurn prompt context now s
  | Cancel => cancel s
  | GraceElapsed => graceElapsed s
  | Inbound e => streamed e s
  | ResolvePermission requestId optionId => resolvePermission requestId optionId s
  | InboundResponse id o => response id o s
  | TransportExit detail => transportExit detail s
  | Close => close s
  end.

(** The session after a sequence of inputs (replies dropped). *)
Definition after (s : t) (inputs : list Input) : t :=
  foldl (fun s i => (step s i).2) s inputs.

End Session.

(** ** Vocabulary of the statements *)

(** A string is trimmed when neither its first nor its last code unit is
    white space. *)
Definition trimmed (s : jsstring) : Prop :=
  (forall c, head s = Some c -> isWhiteSpace c = false) /\
  (forall c, last s = Some c -> isWhiteSpace c = false).

(** What [sanitizeArgs] keeps of one array item. *)
Definition keptArg (item : JSValue) : option jsstring :=
  match item with
  | JString s => if nonEmpty (trim s) then Some (trim s) else None
  | _ => None
  end.

(** [t] is [s] without its leading and its trailing white space. *)
Definition trimOf (s t : jsstring) : Prop :=
  exists leading trailing,
    s = leading ++ t ++ trailing /\
    Forall (fun c => isWhiteSpace c = true) leading /\
    Forall (fun c => isWhiteSpace c = true) trailing /\
    trimmed t.

(** [lines] are the pieces of a string between its line breaks, a line
    break being a line feed, together with the carriage return right
    before it when there is one. *)
Inductive LineSplit : jsstring -> list jsstring -> Prop :=
| LineSplit_last (p : jsstring) :
    LF ∉ p -> LineSplit p [p]
| LineSplit_lf (p s : jsstring) (lines : list jsstring) :
    LF ∉ p -> last p <> Some CR -> LineSplit s lines ->
    LineSplit (p ++ LF :: s) (p :: lines)
| LineSplit_crlf (p s : jsstring) (lines : list jsstring) :
    LF ∉ p -> LineSplit s lines ->
    LineSplit (p ++ CR :: LF :: s) (p :: lines).

(** [args] are the items kept of [items]: each string item stripped of its
    leading and trailing white space, unless nothing is left of it; every
    other item is dropped; the order is kept. *)
Inductive Sanitized : list JSValue -> list jsstring -> Prop :=
| Sanitized_nil : Sanitized [] []
| Sanitized_keep (s t : jsstring) (items : list JSValue) (args : list jsstring) :
    trimOf s t -> t <> [] -> Sanitized items args ->
    Sanitized (JString s :: items) (t :: args)
| Sanitized_blank (s : jsstring) (items : list JSValue) (args : list jsstring) :
    trimOf s [] -> Sanitized items args ->
    Sanitized (JString s :: items) args
| Sanitized_other (item : JSValue) (items : list JSValue) (args : list jsstring) :
    (forall s, item <> JString s) -> Sanitized items args ->
    Sanitized (item :: items) args.

(** Two pieces that differ at most by one trailing carriage return. *)
Definition sameUpToCR (p q : jsstring) : Prop :=
  q = p \/ q = p ++ [CR].

(** [pieces.join("\n")] *)
Fixpoint joinLF (pieces : list jsstring) : jsstring :=
  match pieces with
  | [] => []
  | [p] => p
  | p :: rest => p ++ LF :: joinLF rest
  end.

(** What [normalizeEnvVars] collects from one well-typed entry: the key
    trimmed, the entry dropped when nothing is left of the key. *)
Definition cleanedPair (e : AgentEnvVar) : option AgentEnvVar :=
  if nonEmpty (trim (key e))
  then Some (mkEnvVar (trim (key e)) (value e))
  else None.

(** First entry whose trimmed key is [k]. *)
Definition firstWithTrimmedKey (k : jsstring) (entries : list AgentEnvVar) : option AgentEnvVar :=
  List.find (fun e => bool_decide (trim (key e) = k)) entries.

(** Last entry of a list of pairs with the given key. *)
Definition lastWithKey (k : jsstring) (pairs : list AgentEnvVar) : option AgentEnvVar :=
  firstWithKey k (rev pairs).

(** Settings whose [env] names [__proto__] twice. *)
Definition protoSettings : BaseAgentSettings.t :=
  BaseAgentSettings.mk (lit "claude-code-acp") (lit "Claude Code")
    (lit "/usr/bin/claude-code-acp") []
    [mkEnvVar protoName (lit "a"); mkEnvVar protoName (lit "b")].


(** The frontmatter block of a content: the content is three dashes,
    white space, a line feed, the block, a line feed, three dashes and
    anything; the white space is as long as any such reading of the
    content allows (blank lines belong to it), and the block then ends at
    the first line feed that three dashes follow. *)
Definition frontmatterBlock (content yaml : jsstring) : Prop :=
  exists ws rest,
    content = DASHES ++ ws ++ (LF :: yaml) ++ (LF :: DASHES) ++ rest /\
    Forall (fun c => isWhiteSpace c = true) ws /\
    (forall ws' yaml' rest',
       content = DASHES ++ ws' ++ (LF :: yaml') ++ (LF :: DASHES) ++ rest' ->
       Forall (fun c => isWhiteSpace c = true) ws' ->
       (length ws' <= length ws)%nat) /\
    (forall yaml' rest',
       yaml ++ (LF :: DASHES) ++ rest = yaml' ++ (LF :: DASHES) ++ rest' ->
       (length yaml <= length yaml')%nat).

(** The key and the value one line of a frontmatter block contributes. *)
Definition lineEntry (line : jsstring) : option (jsstring * jsstring) :=
  let colonIndex := indexOf COLON line in
  if (0 <? colonIndex)%Z
  then Some (trim (slice 0 colonIndex line), trim (sliceFrom (colonIndex + 1) line))
  else None.

(** The value a block gives a key: that of the last line with this key. *)
Definition blockValue (k : jsstring) (yaml : jsstring) : option jsstring :=
  snd <$> List.find (fun kv => bool_decide (kv.1 = k)) (rev (omap lineEntry (splitLF yaml))).

(** The block of a file "defines both a name and a description key". *)
Definition definesNameAndDescription (content : jsstring) : bool :=
  match matchFrontmatter content with
  | None => false
  | Some yaml =>
      bool_decide (is_Some (blockValue (lit "name") yaml)) &&
      bool_decide (is_Some (blockValue (lit "description") yaml))
  end.

(** The entry a directory entry stands for, if any: the file is readable,
    starts with a frontmatter block, and the block gives both [name] and
    [description] a non-empty value. *)
Definition agentOfFile (node : Node.t) (agentsDir file : jsstring) : option SubAgentMetadata.t :=
  match Node.readFileSync node (Node.join node agentsDir file) with
  | None => None
  | Some content =>
      match matchFrontmatter content with
      | None => None
      | Some yaml =>
          match blockValue (lit "name") yaml, blockValue (lit "description") yaml with
          | Some name, Some description =>
              if nonEmpty name && nonEmpty description
              then Some (SubAgentMetadata.mk name description
                           (blockValue (lit "model") yaml)
                           (blockValue (lit "color") yaml)
                           SUBAGENT_EMOJI (Node.join node agentsDir file))
              else None
          | _, _ => None
          end
      end
  end.

(** The same, said of the content itself: [a] is the entry of [file] when
    the file is readable, its content has a frontmatter block, and the
    block gives [name] and [description] the non-empty values [a]
    carries. *)
Definition listsAgent (node : Node.t) (agentsDir file : jsstring) (a : SubAgentMetadata.t) : Prop :=
  exists content yaml name description,
    Node.readFileSync node (Node.join node agentsDir file) = Some content /\
    frontmatterBlock content yaml /\
    blockValue (lit "name") yaml = Some name /\ name <> [] /\
    blockValue (lit "description") yaml = Some description /\ description <> [] /\
    a = SubAgentMetadata.mk name description
          (blockValue (lit "model") yaml) (blockValue (lit "color") yaml)
          SUBAGENT_EMOJI (Node.join node agentsDir file).

(** Two files whose fences are not lines of three dashes: one opens with
    an empty block before the real one, the other closes with a line that
    merely starts with three dashes. *)
Definition blankFirstBlockFile : jsstring :=
  lit "---" ++ [LF; LF] ++ lit "---" ++ [LF] ++ lit "name: late" ++ [LF] ++
  lit "description: second block" ++ [LF] ++ lit "---".

Definition looseFenceFile : jsstring :=
  lit "---" ++ [LF] ++ lit "name: loose" ++ [LF] ++ lit "description: helps" ++ [LF] ++
  lit "---- not a fence".

Definition looseFenceNode : Node.t :=
  Node.mk (fun _ => true)
          (fun _ => Some [lit "blank.md"; lit "loose.md"])
          (fun path => if endsWith (lit "blank.md") path then Some blankFirstBlockFile
                       else Some looseFenceFile)
          (fun dir file => dir ++ lit "/" ++ file).

(** A directory with the single file [a.md], whose block has a [name:]
    line without a value. *)
Definition blankNameFile : jsstring :=
  lit "---" ++ [LF] ++ lit "name:" ++ [LF] ++ lit "description: helps" ++ [LF] ++ lit "---".

Definition blankNameNode : Node.t :=
  Node.mk (fun _ => true)
          (fun _ => Some [lit "a.md"])
          (fun _ => Some blankNameFile)
          (fun dir file => dir ++ lit "/" ++ file).

(** A directory with two entries: [helper.md], a well-formed sub-agent
    file, and [notes.txt]. *)
Definition helperFile : jsstring :=
  lit "---" ++ [LF] ++ lit "name: helper" ++ [LF] ++ lit "description: helps" ++ [LF] ++
  lit "model: sonnet" ++ [LF] ++ lit "---" ++ [LF] ++ lit "You are a helper.".

Definition helperNode : Node.t :=
  Node.mk (fun _ => true)
          (fun _ => Some [lit "helper.md"; lit "notes.txt"])
          (fun path => if endsWith (lit "helper.md") path then Some helperFile else None)
          (fun dir file => dir ++ lit "/" ++ file).

(** A correlator is well formed when no id is pending twice and every
    pending id was handed out by the counter. *)
Definition correlatorWf (c : Correlator.t) : Prop :=
  NoDup (Correlator.pendingIds c) /\
  Forall (fun i => i < Correlator.nextId c) (Correlator.pendingIds c).

(** [issue] calls only, one per request. *)
Definition issueAll (requests : list (jsstring * JSValue * N)) : list Correlator.Call :=
  (fun r => Correlator.Issue r.1.1 r.1.2 r.2) <$> requests.

(** The ids [first], [first + 1], ..., [n] of them. *)
Definition idsFrom (first : N) (n : nat) : list N :=
  (fun k => first + N.of_nat k) <$> seq 0 n.

(** Exactly one turn is in flight while the session is [Busy] or
    [Cancelling], and none otherwise. *)
Definition turnsMatchState (s : Session.t) : Prop :=
  match Session.state s with
  | Session.Busy | Session.Cancelling => length (Session.turns s) = 1%nat
  | _ => Session.turns s = []
  end.

(** A session brought to [Busy]: initialized, handshake done, one turn
    sent. *)
Definition busySession : Session.t :=
  Session.after
    (Session.create (lit "session-1")
       (toAgentConfig (BaseAgentSettings.mk (lit "claude-code-acp") (lit "Claude Code")
                         (lit "/usr/bin/echo-agent") [] [])
                      (lit "/vault")))
    [Session.Initialize 0; Session.HandshakeResponse true;
     Session.SendTurn (lit "hello") JUndefined 1].


(** ** components/settings/AgentClientSettingTab

    The four private helpers behind the "Arguments" and "Environment
    variables" text areas. *)

Definition EQUALS : N := 61.

(** [formatArgs]: [args.join("\n")] *)
Definition formatArgs (args : list jsstring) : jsstring :=
  joinLF args.

(** [parseArgs] *)
Definition parseArgs (value : jsstring) : list jsstring :=
  List.filter nonEmpty (List.map trim (splitLines value)).

(** [formatEnv]: one [KEY=VALUE] line per entry. *)
Definition formatEnv (env : list AgentEnvVar) : jsstring :=
  joinLF (List.map (fun entry => key entry ++ (EQUALS :: value entry)) env).

(** The body of the loop of [parseEnv]: [None] for each [continue], the
    pushed entry otherwise. *)
Definition parseEnvLine (line : jsstring) : option AgentEnvVar :=
  let trimmedLine := trim line in
  if negb (nonEmpty trimmedLine) then None
  else
    let delimiter := indexOf EQUALS trimmedLine in
    if (delimiter =? -1)%Z then None
    else
      let k := trim (slice 0 delimiter trimmedLine) in
      let envValue := trim (sliceFrom (delimiter + 1) trimmedLine) in
      if negb (nonEmpty k) then None
      else Some (mkEnvVar k envValue).

(** [parseEnv] *)
Definition parseEnv (value : jsstring) : list AgentEnvVar :=
  normalizeEnvVars (envVarArray (omap parseEnvLine (splitLines value))).

(** ** hooks/useMentions

    The state of the mention dropdown and the callbacks that change it.
    What the hook gets from outside - the mention [detectMention] finds,
    the sub-agents and notes the vault returns, and the test
    [a.name.toLowerCase().includes(...) || a.description...] applied to a
    sub-agent - comes in as arguments.

    The callbacks are made by [useCallback]: [navigate] reads [isOpen] and
    [suggestions.length], and [selectSuggestion] reads [context], from the
    render that made the callback, not from the state of the moment.
    Every [set...] call lands on the state React holds, in call order, and
    the updater [prev => ...] of [navigate] receives that state. *)

Module Mentions.
Section Hook.

Variables Agent Note Context : Type.

(** Whether a sub-agent matches the query of a mention. *)
Variable matchesQuery : Context -> Agent -> bool.

Record t : Type := mk {
  suggestions : list (Agent + Note);
  selectedIndex : Z;
  context : option Context
}.

(** The three [useState] initial values. *)
Definition initial : t := mk [] 0%Z None.

(** [suggestions.length > 0 && context !== null] *)
Definition isOpen (st : t) : bool :=
  nonEmptyList (suggestions st) &&
  match context st with Some _ => true | None => false end.

(** A mounted hook: the state React holds, and the state of the latest
    render, which the callbacks read through their closures. *)
Record Hook : Type := mkHook {
  current : t;
  rendered : t
}.

Definition mount : Hook := mkHook initial initial.

(** React renders again: the callbacks now close over the current state. *)
Definition render (h : Hook) : Hook := mkHook (current h) (current h).

(** [updateSuggestions], given what [detectMention] and the vault return. *)
Definition updateSuggestions (detected : option Context) (subAgents : list Agent) (notes : list Note) (h : Hook) : Hook :=
  match detected with
  | None => mkHook (mk [] 0%Z None) (rendered h)
  | Some ctx =>
      let filteredAgents := List.filter (matchesQuery ctx) subAgents in
      mkHook (mk (List.map inl filteredAgents ++ List.map inr notes) 0%Z (Some ctx))
             (rendered h)
  end.

(** [selectSuggestion], as far as the state goes. *)
Definition selectSuggestion (h : Hook) : Hook :=
  match context (rendered h) with
  | None => h
  | Some _ => mkHook (mk [] 0%Z None) (rendered h)
  end.

Inductive Direction : Type := Up | Down.

(** [navigate] *)
Definition navigate (direction : Direction) (h : Hook) : Hook :=
  if negb (isOpen (rendered h)) then h
  else
    let maxIndex := (Z.of_nat (length (suggestions (rendered h))) - 1)%Z in
    let prev := selectedIndex (current h) in
    mkHook (mk (suggestions (current h))
               (match direction with
                | Down => Z.min (prev + 1) maxIndex
                | Up => Z.max (prev - 1) 0
                end)
               (context (current h)))
           (rendered h).

(** [close] *)
Definition close (h : Hook) : Hook := mkHook (mk [] 0%Z None) (rendered h).

(** The calls a component can make on the hook. *)
Inductive Call : Type :=
| UpdateSuggestions (detected : option Context) (subAgents : list Agent) (notes : list Note)
| SelectSuggestion
| Navigate (direction : Direction)
| Close.

Definition invoke (h : Hook) (call : Call) : Hook :=
  match call with
  | UpdateSuggestions detected subAgents notes =>
      updateSuggestions detected subAgents notes h
  | SelectSuggestion => selectSuggestion h
  | Navigate direction => navigate direction h
  | Close => close h
  end.

(** What happens to a mounted hook: a call on the callbacks of the latest
    render, or a new render. *)
Inductive Event : Type :=
| Invoke (call : Call)
| Render.

Definition step (h : Hook) (e : Event) : Hook :=
  match e with
  | Invoke call => invoke h call
  | Render => render h
  end.

Definition after (h : Hook) (events : list Event) : Hook :=
  foldl step h events.

(** Every call is followed by a render, so that each call is made on
    fresh callbacks. *)
Definition eachRendered (calls : list Call) : list Event :=
  flat_map (fun call => [Invoke call; Render]) calls.

End Hook.
End Mentions.

(** ** Vocabulary of the further statements *)

(** A list of environment pairs is normalized when its keys are pairwise
    distinct, non-empty and trimmed. *)
Definition normalizedEnv (env : list AgentEnvVar) : Prop :=
  NoDup (key <$> env) /\
  Forall (fun p => key p <> [] /\ trimmed (key p)) env.

(** An argument the "Arguments" text area can show on one line of its
    own. *)
Definition lineArg (arg : jsstring) : Prop :=
  arg <> [] /\ trimmed arg /\ (LF ∉ arg).

(** A pair the "Environment variables" text area can show on one line as
    [KEY=VALUE]. *)
Definition lineEnvVar (e : AgentEnvVar) : Prop :=
  key e <> [] /\ trimmed (key e) /\ (EQUALS ∉ key e) /\ (LF ∉ key e) /\
  trimmed (value e) /\ (LF ∉ value e).

(** The entries of a plain object as [{key, value}] objects. *)
Definition entriesArray (props : list (jsstring * JSValue)) : JSValue :=
  JArray ((fun kv => JObject [(lit "key", JString kv.1); (lit "value", kv.2)]) <$> props).

(** The language of [/^---\s*\n([\s\S]*?)\n---/]: three dashes, white
    space, a line feed, any text, a line feed and three dashes, anything. *)
Definition hasFrontmatter (content : jsstring) : Prop :=
  exists ws body rest,
    content = DASHES ++ ws ++ (LF :: body) ++ (LF :: DASHES) ++ rest /\
    Forall (fun c => isWhiteSpace c = true) ws.

(** [typeof v === "object" && v !== null && !Array.isArray(v)] *)
Definition isPlainObject (v : JSValue) : bool :=
  match v with JObject _ => true | _ => false end.

(** The selected index points at a suggestion while the dropdown is open
    and is zero while it is closed. *)
Definition selectionInRange {Agent Note Context : Type} (st : Mentions.t Agent Note Context) : Prop :=
  if Mentions.isOpen _ _ _ st
  then (0 <= Mentions.selectedIndex _ _ _ st
        < Z.of_nat (length (Mentions.suggestions _ _ _ st)))%Z
  else Mentions.selectedIndex _ _ _ st = 0%Z.

(* ===================================================================== *)
(** * Part II - lemmas and theorems                                       *)
(* ===================================================================== *)

(** ** Trimming *)

Lemma trimStart_head (s : jsstring) (c : N) :
  head (trimStart s) = Some c -> isWhiteSpace c = false.
Proof.
  induction s as [|d s IH]; simpl; [discriminate|].
  destruct (isWhiteSpace d) eqn:Hd; [exact IH|].
  simpl. intros [= <-]. exact Hd.
Qed.

Lemma trimStart_suffix (s : jsstring) : trimStart s `suffix_of` s.
Proof.
  induction s as [|d s IH]; simpl; [reflexivity|].
  destruct (isWhiteSpace d); [|reflexivity].
  by apply suffix_cons_r.
Qed.

Lemma trimEnd_prefix (s : jsstring) : trimEnd s `prefix_of` s.
Proof.
  unfold trimEnd. destruct (trimStart_suffix (rev s)) as [k Hk].
  exists (rev k). apply (f_equal (@rev N)) in Hk.
  rewrite rev_involutive in Hk. rewrite Hk at 1. by rewrite rev_app_distr.
Qed.

Lemma last_rev_head {A} (l : list A) : last (rev l) = head l.
Proof.
  destruct l as [|a l]; [done|]. simpl. by rewrite last_snoc.
Qed.

Lemma trimEnd_last (s : jsstring) (c : N) :
  last (trimEnd s) = Some c -> isWhiteSpace c = false.
Proof.
  unfold trimEnd. rewrite last_rev_head. apply trimStart_head.
Qed.

Lemma trim_trimmed (s : jsstring) : trimmed (trim s).
Proof.
  unfold trim. split; intros c Hc.
  - destruct (trimEnd_prefix (trimStart s)) as [k Hk].
    apply (trimStart_head s). rewrite Hk.
    destruct (trimEnd (trimStart s)); [discriminate|exact Hc].
  - by apply trimEnd_last in Hc.
Qed.

Lemma trimStart_fixed (s : jsstring) :
  (forall c, head s = Some c -> isWhiteSpace c = false) -> trimStart s = s.
Proof.
  destruct s as [|d s]; [done|]. simpl. intros H.
  by rewrite (H d eq_refl).
Qed.

Lemma trim_fixed (s : jsstring) : trimmed s -> trim s = s.
Proof.
  intros [Hh Hl]. unfold trim, trimEnd.
  rewrite (trimStart_fixed s Hh).
  rewrite trimStart_fixed; [apply rev_involutive|].
  intros c. rewrite <- last_rev_head, rev_involutive. apply Hl.
Qed.

Lemma trim_idempotent (s : jsstring) : trim (trim s) = trim s.
Proof. apply trim_fixed, trim_trimmed. Qed.

Lemma nonEmpty_true (s : jsstring) : nonEmpty s = true <-> s <> [].
Proof. destruct s; simpl; split; congruence. Qed.

(** ** sanitizeArgs *)

Lemma filter_map_omap {A B} (f : A -> B) (p : B -> bool) (l : list A) :
  List.filter p (List.map f l) = omap (fun a => if p (f a) then Some (f a) else None) l.
Proof.
  induction l as [|a l IH]; simpl; [done|].
  destruct (p (f a)); simpl; by rewrite IH.
Qed.

Lemma sanitizeArgs_array (items : list JSValue) :
  sanitizeArgs (JArray items) = omap keptArg items.
Proof.
  unfold sanitizeArgs. rewrite filter_map_omap.
  apply list_omap_ext, Forall_Forall2_diag, Forall_forall.
  intros item _. by destruct item.
Qed.

Lemma sanitizeArgs_string (s : jsstring) :
  sanitizeArgs (JString s) = omap keptArg (JString <$> splitLines s).
Proof.
  unfold sanitizeArgs. rewrite filter_map_omap.
  apply list_omap_ext, Forall2_fmap_r, Forall_Forall2_diag, Forall_forall.
  by intros line _.
Qed.

Lemma keptArg_trimmed (item : JSValue) (s : jsstring) :
  keptArg item = Some s -> s <> [] /\ trimmed s.
Proof.
  destruct item; simpl; try discriminate.
  destruct (nonEmpty (trim s0)) eqn:Hne; [|discriminate].
  intros [= <-]. split; [by apply nonEmpty_true|apply trim_trimmed].
Qed.

Lemma omap_keptArg_trimmed (items : list JSValue) :
  Forall (fun s => s <> [] /\ trimmed s) (omap keptArg items).
Proof.
  induction items as [|item items IH]; simpl; [constructor|].
  destruct (keptArg item) eqn:Hk; simpl; [|exact IH].
  constructor; [by eapply keptArg_trimmed|exact IH].
Qed.

(** *** Splitting into lines *)

Lemma splitLF_cons (c : N) (s : jsstring) :
  splitLF (c :: s) =
  if c =? LF then [] :: splitLF s
  else match splitLF s with
       | p :: ps => (c :: p) :: ps
       | [] => [[c]]
       end.
Proof. reflexivity. Qed.

Lemma splitLines_cons (c : N) (s : jsstring) :
  splitLines (c :: s) =
  if c =? LF then [] :: splitLines s
  else if (c =? CR) && startsWith [LF] s then splitLines s
  else match splitLines s with
       | p :: ps => (c :: p) :: ps
       | [] => [[c]]
       end.
Proof. reflexivity. Qed.

(** Splitting at line feeds loses nothing: the pieces hold no line feed
    and joined by line feeds they give the string back. *)
Lemma splitLF_join (s : jsstring) :
  joinLF (splitLF s) = s /\ Forall (fun p => LF ∉ p) (splitLF s) /\ splitLF s <> [].
Proof.
  induction s as [|c s (IHj & IHf & IHn)].
  - split; [done|]. split; [|done]. constructor; [apply not_elem_of_nil|constructor].
  - rewrite splitLF_cons. destruct (c =? LF) eqn:Hc.
    + apply N.eqb_eq in Hc. subst c. split; [|split; [|done]].
      * destruct (splitLF s) as [|p ps]; [done|]. simpl in *. by rewrite IHj.
      * constructor; [apply not_elem_of_nil|exact IHf].
    + apply N.eqb_neq in Hc.
      destruct (splitLF s) as [|p ps]; [done|].
      split; [|split; [|done]].
      * rewrite <- IHj. by destruct ps.
      * inversion IHf as [|? ? Hp Hps]; subst. constructor; [|exact Hps].
        intros [Heq|Hin]%elem_of_cons; [congruence|done].
Qed.

(** The pieces of [split(/\r?\n/)] are those of [split("\n")], except
    that a piece has lost the carriage return that stood right before its
    line feed. *)
Lemma splitLines_splitLF (s : jsstring) :
  Forall2 sameUpToCR (splitLines s) (splitLF s).
Proof.
  induction s as [|c s IH].
  - repeat constructor.
  - rewrite splitLines_cons, splitLF_cons.
    destruct (c =? LF) eqn:Hc; [constructor; [by left|exact IH]|].
    destruct ((c =? CR) && startsWith [LF] s) eqn:Hcr.
    + apply andb_true_iff in Hcr as [Hc'%N.eqb_eq Hs]. subst c.
      destruct s as [|d s]; [discriminate|]. cbn [startsWith] in Hs.
      apply andb_true_iff in Hs as [Hd%N.eqb_eq _]. subst d.
      rewrite splitLines_cons, splitLF_cons in *.
      rewrite N.eqb_refl in *.
      inversion IH as [|? ? ? ? _ Hrest]; subst.
      constructor; [by right|exact Hrest].
    + inversion IH as [|p q ps qs Hpq Hrest Hp Hq].
      * pose proof (splitLF_join s) as (_ & _ & Hn). congruence.
      * constructor; [|exact Hrest].
        destruct Hpq as [->| ->]; [by left|by right].
Qed.

Lemma trimStart_blank_snoc (p : jsstring) (c : N) :
  trimStart p = [] -> isWhiteSpace c = true -> trimStart (p ++ [c]) = [].
Proof.
  intros Hp Hc. induction p as [|d p IH]; simpl in *; [by rewrite Hc|].
  destruct (isWhiteSpace d); [by apply IH|discriminate].
Qed.

Lemma trimStart_app (p q : jsstring) :
  trimStart p <> [] -> trimStart (p ++ q) = trimStart p ++ q.
Proof.
  intros Hp. induction p as [|d p IH]; simpl in *; [done|].
  destruct (isWhiteSpace d); [by apply IH|done].
Qed.

Lemma trim_snoc_whitespace (p : jsstring) (c : N) :
  isWhiteSpace c = true -> trim (p ++ [c]) = trim p.
Proof.
  intros Hc. unfold trim.
  destruct (trimStart p) as [|d t] eqn:Hp.
  - by rewrite (trimStart_blank_snoc p c Hp Hc).
  - rewrite trimStart_app by (by rewrite Hp). rewrite Hp.
    unfold trimEnd. rewrite rev_app_distr. simpl. by rewrite Hc.
Qed.

Lemma sameUpToCR_trim (p q : jsstring) : sameUpToCR p q -> trim p = trim q.
Proof.
  intros [->| ->]; [done|]. symmetry. by apply trim_snoc_whitespace.
Qed.

(** Since a trailing carriage return is trimmed anyway, [sanitizeArgs]
    sees a string as its pieces between line feeds. *)
Lemma sanitizeArgs_string_LF (s : jsstring) :
  sanitizeArgs (JString s) = omap keptArg (JString <$> splitLF s).
Proof.
  rewrite sanitizeArgs_string.
  apply list_omap_ext, Forall2_fmap, Forall2_impl with (1 := splitLines_splitLF s).
  intros p q Hpq. simpl. by rewrite (sameUpToCR_trim p q Hpq).
Qed.

(** *** What trimming and splitting do, said without the code *)

Lemma trimStart_split (s : jsstring) :
  exists leading,
    s = leading ++ trimStart s /\ Forall (fun c => isWhiteSpace c = true) leading.
Proof.
  induction s as [|c s (leading & Hs & Hall)]; [by exists []|]. simpl.
  destruct (isWhiteSpace c) eqn:Hc; [|by exists []].
  exists (c :: leading). split; [by rewrite Hs at 1|by constructor].
Qed.

Lemma trimEnd_split (s : jsstring) :
  exists trailing,
    s = trimEnd s ++ trailing /\ Forall (fun c => isWhiteSpace c = true) trailing.
Proof.
  unfold trimEnd. destruct (trimStart_split (rev s)) as (leading & Hs & Hall).
  exists (rev leading). split.
  - rewrite <- rev_app_distr, <- Hs. by rewrite rev_involutive.
  - apply Forall_forall. intros c Hc%list_elem_of_In%in_rev%list_elem_of_In.
    by apply (proj1 (Forall_forall _ _) Hall).
Qed.

Lemma trim_trimOf (s : jsstring) : trimOf s (trim s).
Proof.
  destruct (trimStart_split s) as (leading & Hs & Hleading).
  destruct (trimEnd_split (trimStart s)) as (trailing & Ht & Htrailing).
  exists leading, trailing. split; [|split; [done|split; [done|apply trim_trimmed]]].
  unfold trim. by rewrite <- Ht.
Qed.

Lemma LineSplit_after_LF (s : jsstring) (lines : list jsstring) :
  LineSplit (LF :: s) ([] :: lines) -> LineSplit s lines.
Proof.
  inversion 1 as [p Hp|p s0 ls Hp Hlast Hrest Heq|p s0 ls Hp Hrest Heq]; subst.
  - by injection Heq as <-.
  - discriminate Heq.
Qed.

Lemma LineSplit_cons (c : N) (s p : jsstring) (ps : list jsstring) :
  c <> LF -> (c =? CR) && startsWith [LF] s = false ->
  LineSplit s (p :: ps) -> LineSplit (c :: s) ((c :: p) :: ps).
Proof.
  intros Hc Hcr.
  inversion 1 as [p0 Hp|p0 s0 ls Hp Hlast Hrest|p0 s0 ls Hp Hrest]; subst.
  - apply LineSplit_last. by apply not_elem_of_cons.
  - apply (LineSplit_lf (c :: p) s0 ps); [by apply not_elem_of_cons| |done].
    destruct p as [|d p]; [|by rewrite last_cons_cons].
    simpl. intros [= ->]. cbn [app startsWith] in Hcr.
    by rewrite !N.eqb_refl in Hcr.
  - apply (LineSplit_crlf (c :: p) s0 ps); [by apply not_elem_of_cons|done].
Qed.

Lemma splitLines_nonempty (s : jsstring) : splitLines s <> [].
Proof.
  pose proof (splitLines_splitLF s) as Hrel.
  pose proof (splitLF_join s) as (_ & _ & Hne).
  intros Hnil. rewrite Hnil in Hrel. inversion Hrel; congruence.
Qed.

(** The pieces [split(/\r?\n/)] gives are the lines of the string. *)
Lemma splitLines_LineSplit (s : jsstring) : LineSplit s (splitLines s).
Proof.
  induction s as [|c s IH].
  - apply LineSplit_last, not_elem_of_nil.
  - rewrite splitLines_cons. destruct (c =? LF) eqn:Hc.
    + apply N.eqb_eq in Hc. subst c.
      apply (LineSplit_lf [] s); [apply not_elem_of_nil|done|exact IH].
    + apply N.eqb_neq in Hc.
      destruct ((c =? CR) && startsWith [LF] s) eqn:Hcr.
      * apply andb_true_iff in Hcr as [Hc'%N.eqb_eq Hs]. subst c.
        destruct s as [|d s]; [discriminate|]. cbn [startsWith] in Hs.
        apply andb_true_iff in Hs as [Hd%N.eqb_eq _]. subst d.
        rewrite splitLines_cons, N.eqb_refl in *.
        apply (LineSplit_crlf [] s); [apply not_elem_of_nil|].
        by apply LineSplit_after_LF.
      * destruct (splitLines s) as [|p ps] eqn:Hsplit;
          [by apply splitLines_nonempty in Hsplit|].
        by apply LineSplit_cons.
Qed.

Lemma omap_keptArg_Sanitized (items : list JSValue) :
  Sanitized items (omap keptArg items).
Proof.
  induction items as [|item items IH]; [constructor|].
  change (omap keptArg (item :: items))
    with (match keptArg item with
          | Some arg => arg :: omap keptArg items
          | None => omap keptArg items
          end).
  destruct item; try (apply Sanitized_other; [discriminate|exact IH]).
  cbn [keptArg]. pose proof (trim_trimOf s) as Ht.
  destruct (trim s) as [|c t] eqn:Htrim; cbn [nonEmpty].
  - by apply Sanitized_blank.
  - by apply Sanitized_keep.
Qed.

(** C10. For every JavaScript value, [sanitizeArgs] returns only non-empty
    strings that neither start nor end with white space.  From an array it
    keeps, in order, each string item stripped of its leading and trailing
    white space unless nothing is left of it, and drops everything else; a
    string is first cut into its lines, at each line feed together with
    the carriage return right before it, and the lines are treated like
    the items of an array; any other value gives the empty list.  So
    ["a\n b \r\nc"] gives [a, b, c], and [[" x ", 0, null, "  ", "y"]] gives
    [x, y]. *)
Theorem sanitizeArgs_spec (value : JSValue) :
  Forall (fun s => s <> [] /\ trimmed s) (sanitizeArgs value) /\
  match value with
  | JArray items => Sanitized items (sanitizeArgs value)
  | JString s =>
      exists lines, LineSplit s lines /\ Sanitized (JString <$> lines) (sanitizeArgs value)
  | _ => sanitizeArgs value = []
  end /\
  sanitizeArgs (JString (lit "a" ++ [LF] ++ lit " b " ++ [CR; LF] ++ lit "c"))
    = [lit "a"; lit "b"; lit "c"] /\
  sanitizeArgs (JArray [JString (lit " x "); JNumber 0; JNull; JString (lit "  ");
                        JString (lit "y")])
    = [lit "x"; lit "y"].
Proof.
  split; [|split; [|by vm_compute]].
  - destruct value; try constructor.
    + rewrite sanitizeArgs_string. apply omap_keptArg_trimmed.
    + rewrite sanitizeArgs_array. apply omap_keptArg_trimmed.
  - destruct value; try reflexivity.
    + exists (splitLines s). split; [apply splitLines_LineSplit|].
      rewrite sanitizeArgs_string. apply omap_keptArg_Sanitized.
    + rewrite sanitizeArgs_array. apply omap_keptArg_Sanitized.
Qed.

(** ** normalizeEnvVars *)

Lemma collectPairs_envVarArray (entries : list AgentEnvVar) :
  collectPairs (envVarArray entries) = omap cleanedPair entries.
Proof.
  unfold collectPairs, envVarArray. simpl.
  apply list_omap_ext, Forall2_fmap_l, Forall_Forall2_diag, Forall_forall.
  intros [k v] _. reflexivity.
Qed.

Lemma dedupe_sublist (seen : gset jsstring) (pairs : list AgentEnvVar) :
  sublist (dedupe seen pairs) pairs.
Proof.
  revert seen. induction pairs as [|p pairs IH]; intros seen; simpl.
  - constructor.
  - case_bool_decide; [apply sublist_cons|apply sublist_skip]; apply IH.
Qed.

Lemma dedupe_avoids_seen (seen : gset jsstring) (pairs : list AgentEnvVar) (p : AgentEnvVar) :
  p ∈ dedupe seen pairs -> key p ∉ seen.
Proof.
  revert seen. induction pairs as [|q pairs IH]; intros seen; simpl.
  - by intros ?%elem_of_nil.
  - case_bool_decide as Hq; [apply IH|].
    intros [->|Hin]%elem_of_cons; [done|].
    apply IH in Hin. set_solver.
Qed.

Lemma dedupe_NoDup (seen : gset jsstring) (pairs : list AgentEnvVar) :
  NoDup (key <$> dedupe seen pairs).
Proof.
  revert seen. induction pairs as [|q pairs IH]; intros seen; simpl.
  - constructor.
  - case_bool_decide as Hq; [apply IH|].
    rewrite fmap_cons. constructor; [|apply IH].
    intros (p & Hk & Hin)%list_elem_of_fmap.
    apply dedupe_avoids_seen in Hin. set_solver.
Qed.

Lemma dedupe_first (seen : gset jsstring) (pairs : list AgentEnvVar) (k : jsstring) :
  firstWithKey k (dedupe seen pairs) =
  if bool_decide (k ∈ seen) then None else firstWithKey k pairs.
Proof.
  unfold firstWithKey.
  revert seen. induction pairs as [|q pairs IH]; intros seen; simpl.
  - by destruct (bool_decide (k ∈ seen)).
  - destruct (bool_decide (key q ∈ seen)) eqn:Hq.
    + apply bool_decide_eq_true in Hq. rewrite IH.
      case_bool_decide as Hk; [done|].
      case_bool_decide as Hqk; [congruence|done].
    + apply bool_decide_eq_false in Hq. simpl.
      case_bool_decide as Hqk.
      * subst k. by rewrite bool_decide_eq_false_2.
      * rewrite IH.
        rewrite (bool_decide_ext (k ∈ {[key q]} ∪ seen) (k ∈ seen)); [done|].
        rewrite elem_of_union, elem_of_singleton.
        split; [intros [Heq|Hin]; [congruence|exact Hin]|by right].
Qed.

Lemma cleanedPair_Some (e p : AgentEnvVar) :
  cleanedPair e = Some p ->
  nonEmpty (trim (key e)) = true /\ p = mkEnvVar (trim (key e)) (value e).
Proof.
  unfold cleanedPair. destruct (nonEmpty (trim (key e))); [|discriminate].
  by intros [= <-].
Qed.

Lemma cleanedPair_None (e : AgentEnvVar) :
  cleanedPair e = None -> trim (key e) = [].
Proof.
  unfold cleanedPair. destruct (trim (key e)); simpl; [done|discriminate].
Qed.

Lemma omap_cons_case {A B} (f : A -> option B) (a : A) (l : list A) :
  omap f (a :: l) = match f a with Some b => b :: omap f l | None => omap f l end.
Proof. reflexivity. Qed.

Lemma cleaned_first (entries : list AgentEnvVar) (k : jsstring) :
  value <$> firstWithKey k (omap cleanedPair entries) =
  if nonEmpty k then value <$> firstWithTrimmedKey k entries else None.
Proof.
  unfold firstWithKey, firstWithTrimmedKey.
  induction entries as [|e entries IH]; [by destruct (nonEmpty k)|].
  rewrite omap_cons_case. cbn [List.find].
  destruct (cleanedPair e) as [p|] eqn:He.
  - apply cleanedPair_Some in He as [Hne ->]. cbn [List.find key].
    destruct (bool_decide (trim (key e) = k)) eqn:Hk; [|exact IH].
    apply bool_decide_eq_true in Hk. subst k. by rewrite Hne.
  - apply cleanedPair_None in He. rewrite IH.
    destruct (nonEmpty k) eqn:Hk; [|done].
    rewrite bool_decide_eq_false_2; [done|]. intros <-. by rewrite He in Hk.
Qed.

Lemma cleaned_keys (entries : list AgentEnvVar) :
  Forall (fun p => key p <> [] /\ trimmed (key p)) (omap cleanedPair entries).
Proof.
  apply Forall_forall. intros p (e & _ & He)%list_elem_of_omap.
  apply cleanedPair_Some in He as [Hne ->]. simpl.
  split; [by apply nonEmpty_true|apply trim_trimmed].
Qed.

(** C1. On an array of well-typed [{key, value}] entries,
    [normalizeEnvVars] returns, in input order, pairs with pairwise
    distinct keys; every key is non-empty and trimmed; and what the result
    holds under a key [k] is the value of the first input entry whose
    trimmed key is [k] (nothing under the empty key).  The scenario of the
    specification evaluates to [[{A,1},{B,x}]]. *)
Theorem normalizeEnvVars_first_wins (entries : list AgentEnvVar) :
  let out := normalizeEnvVars (envVarArray entries) in
  NoDup (key <$> out) /\
  sublist out (omap cleanedPair entries) /\
  Forall (fun p => key p <> [] /\ trimmed (key p)) out /\
  (forall k, value <$> firstWithKey k out =
             if nonEmpty k then value <$> firstWithTrimmedKey k entries else None) /\
  normalizeEnvVars
    (envVarArray [mkEnvVar (lit "A") (lit "1"); mkEnvVar (lit "A") (lit "2");
                  mkEnvVar (lit " B ") (lit "x")])
  = [mkEnvVar (lit "A") (lit "1"); mkEnvVar (lit "B") (lit "x")].
Proof.
  unfold normalizeEnvVars. rewrite collectPairs_envVarArray. simpl.
  split; [apply dedupe_NoDup|].
  split; [apply dedupe_sublist|].
  split.
  { eapply Forall_forall. intros p Hp.
    eapply (proj1 (Forall_forall _ _) (cleaned_keys entries)).
    eapply elem_of_sublist; [exact Hp|]. apply dedupe_sublist. }
  split.
  { intros k. rewrite dedupe_first, bool_decide_eq_false_2 by set_solver.
    apply cleaned_first. }
  vm_compute. reflexivity.
Qed.

(** ** toAgentConfig *)

Lemma assignString_lookup (k v k' : jsstring) (obj : gmap jsstring jsstring) :
  k' <> protoName ->
  assignString k v obj !! k' = if bool_decide (k = k') then Some v else obj !! k'.
Proof.
  intros Hk'. unfold assignString.
  destruct (bool_decide (k = protoName)) eqn:Hp.
  - apply bool_decide_eq_true in Hp. subst k.
    rewrite bool_decide_eq_false_2; [done|congruence].
  - destruct (bool_decide (k = k')) eqn:Hkk.
    + apply bool_decide_eq_true in Hkk. subst k'. apply lookup_insert_eq.
    + apply bool_decide_eq_false in Hkk. by apply lookup_insert_ne.
Qed.

Lemma assignString_proto (k v : jsstring) (obj : gmap jsstring jsstring) :
  assignString k v obj !! protoName = obj !! protoName.
Proof.
  unfold assignString. destruct (bool_decide (k = protoName)) eqn:Hp; [done|].
  apply bool_decide_eq_false in Hp. by apply lookup_insert_ne.
Qed.

Lemma lastWithKey_snoc (k : jsstring) (pairs : list AgentEnvVar) (e : AgentEnvVar) :
  lastWithKey k (pairs ++ [e]) =
  if bool_decide (key e = k) then Some e else lastWithKey k pairs.
Proof. unfold lastWithKey. by rewrite rev_app_distr. Qed.

Lemma env_fold_lookup (entries : list AgentEnvVar) (acc : gmap jsstring jsstring) (k : jsstring) :
  k <> protoName ->
  foldl (fun acc e => assignString (key e) (value e) acc) acc entries !! k =
  match lastWithKey k entries with
  | Some e => Some (value e)
  | None => acc !! k
  end.
Proof.
  intros Hk. induction entries as [|e entries IH] using rev_ind; [done|].
  rewrite foldl_app, lastWithKey_snoc. simpl.
  rewrite assignString_lookup by done.
  destruct (bool_decide (key e = k)); [done|exact IH].
Qed.

Lemma env_fold_proto (entries : list AgentEnvVar) (acc : gmap jsstring jsstring) :
  foldl (fun acc e => assignString (key e) (value e) acc) acc entries !! protoName =
  acc !! protoName.
Proof.
  induction entries as [|e entries IH] using rev_ind; [done|].
  rewrite foldl_app. simpl. by rewrite assignString_proto.
Qed.

(** The accumulator is a finite map: no key occurs twice in it. *)
Lemma toAgentConfig_env_unique (settings : BaseAgentSettings.t) (wd : jsstring) :
  NoDup (map_to_list (AgentConfig.env (toAgentConfig settings wd))).*1.
Proof. apply NoDup_fst_map_to_list. Qed.

(** The last pair written under a key wins, for every key but
    [__proto__]; keys are compared code unit by code unit. *)
Lemma toAgentConfig_env_last_wins (settings : BaseAgentSettings.t) (wd k : jsstring) :
  k <> protoName ->
  AgentConfig.env (toAgentConfig settings wd) !! k =
  value <$> lastWithKey k (BaseAgentSettings.env settings).
Proof.
  intros Hk. unfold toAgentConfig. simpl.
  rewrite env_fold_lookup by done.
  by destruct (lastWithKey k (BaseAgentSettings.env settings)).
Qed.

Lemma toAgentConfig_env_no_proto (settings : BaseAgentSettings.t) (wd : jsstring) :
  AgentConfig.env (toAgentConfig settings wd) !! protoName = None.
Proof. unfold toAgentConfig. simpl. by rewrite env_fold_proto. Qed.

(** C2. [toAgentConfig] at an [env] that names [__proto__] twice: the last
    occurrence carries ["b"], and the resulting mapping holds nothing
    under that key (it is empty). *)
Theorem toAgentConfig_proto_key_lost :
  value <$> lastWithKey protoName (BaseAgentSettings.env protoSettings) = Some (lit "b") /\
  AgentConfig.env (toAgentConfig protoSettings (lit "/vault")) !! protoName = None /\
  AgentConfig.env (toAgentConfig protoSettings (lit "/vault")) = ∅.
Proof.
  split; [by vm_compute|]. split; [apply toAgentConfig_env_no_proto|].
  apply map_eq. intros k. rewrite lookup_empty.
  destruct (decide (k = protoName)) as [->|Hk].
  - apply toAgentConfig_env_no_proto.
  - rewrite toAgentConfig_env_last_wins by done.
    unfold lastWithKey, firstWithKey, protoSettings.
    cbn [BaseAgentSettings.env rev app List.find key].
    by rewrite !bool_decide_eq_false_2 by congruence.
Qed.

(** ** The command of an AgentConfig *)

Lemma getProp_claudeFromRaw (name : jsstring) (v : JSValue) :
  getProp name (if isObjectLike v then v else JObject []) = getProp name v.
Proof. by destruct v. Qed.

Lemma getProp_rawSettings (name : jsstring) (data : JSValue) :
  getProp name (match data with
                | JUndefined | JNull => JObject []
                | _ => data
                end) = getProp name data.
Proof. by destruct data. Qed.

Lemma nonBlankString_Some (v : JSValue) (s : jsstring) :
  nonBlankString v = Some s -> s <> [] /\ trimmed s.
Proof.
  destruct v; try discriminate. simpl.
  destruct (nonEmpty (trim s0)) eqn:Hne; [|discriminate].
  intros [= <-]. split; [by apply nonEmpty_true|apply trim_trimmed].
Qed.

Lemma loadSettings_command (data : JSValue) :
  ClaudeAgentSettings.command (AgentClientPluginSettings.claude (loadSettings data)) =
  match nonBlankString (getProp (lit "command") (getProp (lit "claude") data)) with
  | Some cmd => cmd
  | None =>
      match nonBlankString (getProp (lit "claudeCodeAcpCommandPath") data) with
      | Some path => path
      | None => []
      end
  end.
Proof.
  unfold loadSettings. cbn [ClaudeAgentSettings.command AgentClientPluginSettings.claude].
  by rewrite getProp_claudeFromRaw, !getProp_rawSettings.
Qed.

(** C3, as the code has it.  [toAgentConfig] copies [settings.command]
    without a check.  The command [loadSettings] produces is empty or
    trimmed, and it is non-empty exactly when the stored [claude.command]
    or the stored [claudeCodeAcpCommandPath] is a string with a non-empty
    trim. *)
Theorem toAgentConfig_command_copied :
  (forall settings wd,
     AgentConfig.command (toAgentConfig settings wd) = BaseAgentSettings.command settings) /\
  (forall data wd,
     let settings := AgentClientPluginSettings.claude (loadSettings data) in
     let cmd := AgentConfig.command (toAgentConfig (ClaudeAgentSettings.asBase settings) wd) in
     trimmed cmd /\
     (cmd <> [] <->
      is_Some (nonBlankString (getProp (lit "command") (getProp (lit "claude") data))) \/
      is_Some (nonBlankString (getProp (lit "claudeCodeAcpCommandPath") data)))).
Proof.
  split; [done|]. intros data wd. cbn zeta.
  change (AgentConfig.command (toAgentConfig _ wd))
    with (ClaudeAgentSettings.command (AgentClientPluginSettings.claude (loadSettings data))).
  rewrite loadSettings_command.
  destruct (nonBlankString (getProp (lit "command") (getProp (lit "claude") data)))
    as [cmd|] eqn:Hc.
  - apply nonBlankString_Some in Hc as [Hne Ht]. split; [done|].
    split; [by left; eexists|done].
  - destruct (nonBlankString (getProp (lit "claudeCodeAcpCommandPath") data))
      as [path|] eqn:Hp.
    + apply nonBlankString_Some in Hp as [Hne Ht]. split; [done|].
      split; [by right; eexists|done].
    + split; [by split|]. split; [done|]. by intros [[? [=]]|[? [=]]].
Qed.

(** C3, as stated, fails: with nothing stored, the settings carry the
    default command, which is empty, and so does the config made of them. *)
Lemma toAgentConfig_default_command_empty :
  AgentConfig.command
    (toAgentConfig
       (ClaudeAgentSettings.asBase (AgentClientPluginSettings.claude (loadSettings JUndefined)))
       (lit "/vault")) = [] /\
  AgentConfig.command
    (toAgentConfig
       (ClaudeAgentSettings.asBase (AgentClientPluginSettings.claude DEFAULT_SETTINGS))
       (lit "/vault")) = [].
Proof. split; reflexivity. Qed.

(** ** Host commands *)




(** ** Sub-agent discovery *)

Lemma startsWith_spec (p s : jsstring) :
  startsWith p s = true <-> exists t, s = p ++ t.
Proof.
  revert s. induction p as [|a p IH]; intros s.
  - split; [by exists s|done].
  - destruct s as [|b s]; simpl.
    + split; [done|by intros [t [=]]].
    + rewrite andb_true_iff, N.eqb_eq, IH. split.
      * intros [-> [t ->]]. by exists t.
      * intros [t [= -> ->]]. split; [done|by exists t].
Qed.

Lemma beforeFence_sound (s body : jsstring) :
  beforeFence s = Some body -> exists rest, s = body ++ (LF :: DASHES) ++ rest.
Proof.
  revert body. induction s as [|c s IH]; intros body; [discriminate|].
  cbn [beforeFence].
  destruct (startsWith (LF :: DASHES) (c :: s)) eqn:Hfence.
  - intros [= <-]. by apply startsWith_spec in Hfence.
  - destruct (beforeFence s) as [body'|]; [|discriminate].
    intros [= <-]. destruct (IH body' eq_refl) as [rest ->]. by exists rest.
Qed.

Lemma beforeFence_complete (body rest : jsstring) :
  is_Some (beforeFence (body ++ (LF :: DASHES) ++ rest)).
Proof.
  induction body as [|c body IH].
  - rewrite app_nil_l.
    change ((LF :: DASHES) ++ rest) with (LF :: (DASHES ++ rest)).
    cbn [beforeFence].
    destruct (startsWith (LF :: DASHES) (LF :: DASHES ++ rest)) eqn:Hfence;
      [by eexists|].
    assert (startsWith (LF :: DASHES) (LF :: DASHES ++ rest) = true) as Htrue
      by (apply startsWith_spec; by exists rest).
    congruence.
  - rewrite <- app_comm_cons. cbn [beforeFence].
    destruct (startsWith (LF :: DASHES) (c :: body ++ (LF :: DASHES) ++ rest));
      [by eexists|].
    destruct IH as [b ->]. by eexists.
Qed.

Lemma afterDashes_sound (s yaml : jsstring) :
  afterDashes s = Some yaml ->
  exists ws rest,
    s = ws ++ (LF :: yaml) ++ (LF :: DASHES) ++ rest /\
    Forall (fun c => isWhiteSpace c = true) ws.
Proof.
  induction s as [|c s IH]; [discriminate|]. cbn [afterDashes].
  destruct (isWhiteSpace c) eqn:Hws.
  - destruct (afterDashes s) as [y|] eqn:Hinner.
    + intros [= <-]. destruct (IH eq_refl) as (ws & rest & -> & Hall).
      exists (c :: ws), rest. split; [done|by constructor].
    + destruct (c =? LF) eqn:Hc; [|discriminate].
      apply N.eqb_eq in Hc. subst c.
      intros (rest & ->)%beforeFence_sound. by exists [], rest.
  - destruct (c =? LF) eqn:Hc; [|discriminate].
    apply N.eqb_eq in Hc. subst c. discriminate Hws.
Qed.

Lemma afterDashes_complete (ws body rest : jsstring) :
  Forall (fun c => isWhiteSpace c = true) ws ->
  is_Some (afterDashes (ws ++ (LF :: body) ++ (LF :: DASHES) ++ rest)).
Proof.
  induction 1 as [|c ws Hc _ IH].
  - rewrite app_nil_l, <- app_comm_cons. cbn [afterDashes].
    change (isWhiteSpace LF) with true. cbn iota.
    destruct (afterDashes (body ++ (LF :: DASHES) ++ rest)); [by eexists|].
    rewrite N.eqb_refl. apply beforeFence_complete.
  - rewrite <- app_comm_cons. cbn [afterDashes]. rewrite Hc.
    destruct IH as [y Hy]. rewrite Hy. by eexists.
Qed.

Lemma cons_tail_eq {A} (a b : A) (l k : list A) : a :: l = b :: k -> l = k.
Proof. by intros [= _ ->]. Qed.

Lemma afterDashes_None (ws body rest : jsstring) :
  Forall (fun c => isWhiteSpace c = true) ws ->
  afterDashes (ws ++ (LF :: body) ++ (LF :: DASHES) ++ rest) <> None.
Proof.
  intros Hws Hnone.
  destruct (afterDashes_complete ws body rest Hws) as [yaml Hyaml]. congruence.
Qed.

(** The lazy group takes as little as it can. *)
Lemma beforeFence_shortest (s body body' rest' : jsstring) :
  beforeFence s = Some body ->
  s = body' ++ (LF :: DASHES) ++ rest' ->
  (length body <= length body')%nat.
Proof.
  revert body body'. induction s as [|c s IH]; intros body body'; [discriminate|].
  cbn [beforeFence].
  destruct (startsWith (LF :: DASHES) (c :: s)) eqn:Hfence.
  - intros [= <-] _. simpl. lia.
  - destruct (beforeFence s) as [b|] eqn:Hb; [|discriminate].
    intros [= <-] Hs. destruct body' as [|c' body'].
    + rewrite app_nil_l in Hs.
      assert (startsWith (LF :: DASHES) (c :: s) = true) as Htrue
        by (apply startsWith_spec; by exists rest').
      congruence.
    + rewrite <- app_comm_cons in Hs. injection Hs as _ Hs.
      specialize (IH b body' eq_refl Hs). simpl. lia.
Qed.

(** The greedy white space takes as much as a match allows, and the text
    after it is cut at the first closing fence. *)
Lemma afterDashes_greedy (s yaml : jsstring) :
  afterDashes s = Some yaml ->
  exists ws rest,
    s = ws ++ (LF :: yaml) ++ (LF :: DASHES) ++ rest /\
    Forall (fun c => isWhiteSpace c = true) ws /\
    (forall ws' yaml' rest',
       s = ws' ++ (LF :: yaml') ++ (LF :: DASHES) ++ rest' ->
       Forall (fun c => isWhiteSpace c = true) ws' ->
       (length ws' <= length ws)%nat) /\
    (forall yaml' rest',
       yaml ++ (LF :: DASHES) ++ rest = yaml' ++ (LF :: DASHES) ++ rest' ->
       (length yaml <= length yaml')%nat).
Proof.
  revert yaml. induction s as [|c s IH]; intros yaml; [discriminate|].
  cbn [afterDashes].
  destruct (if isWhiteSpace c then afterDashes s else None) as [y|] eqn:Hinner.
  - intros [= <-]. destruct (isWhiteSpace c) eqn:Hc; [|discriminate].
    destruct (IH y Hinner) as (ws & rest & -> & Hws & Hlong & Hshort).
    exists (c :: ws), rest. split; [done|]. split; [by constructor|]. split; [|done].
    intros ws' yaml' rest' Heq Hws'. destruct ws' as [|c' ws']; [simpl; lia|].
    rewrite <- !app_comm_cons in Heq. injection Heq as _ Heq.
    apply Forall_cons in Hws' as [_ Hws'].
    specialize (Hlong ws' yaml' rest' Heq Hws'). simpl. lia.
  - destruct (c =? LF) eqn:Hlf; [|discriminate].
    apply N.eqb_eq in Hlf. subst c. intros Hbody.
    destruct (beforeFence_sound _ _ Hbody) as [rest ->].
    exists [], rest. split; [done|]. split; [constructor|]. split.
    + intros ws' yaml' rest' Heq Hws'. destruct ws' as [|c' ws']; [done|].
      exfalso. rewrite <- (app_comm_cons ws') in Heq. apply cons_tail_eq in Heq.
      apply Forall_cons in Hws' as [_ Hws'].
      change (isWhiteSpace LF) with true in Hinner. cbn iota in Hinner.
      rewrite Heq in Hinner.
      by apply (afterDashes_None ws' yaml' rest' Hws').
    + intros yaml' rest' Heq. by eapply beforeFence_shortest.
Qed.

Lemma frontmatterBlock_unique (content yaml yaml' : jsstring) :
  frontmatterBlock content yaml -> frontmatterBlock content yaml' -> yaml = yaml'.
Proof.
  intros (ws & rest & Hc & Hws & Hlong & Hshort) (ws' & rest' & Hc' & Hws' & Hlong' & Hshort').
  pose proof (Hlong ws' yaml' rest' Hc' Hws') as H1.
  pose proof (Hlong' ws yaml rest Hc Hws) as H2.
  rewrite Hc in Hc'. apply app_inv_head in Hc'.
  apply app_inj_1 in Hc' as [-> Hc']; [|lia].
  injection Hc' as Hc'.
  pose proof (Hshort yaml' rest' Hc') as H3.
  pose proof (Hshort' yaml rest (eq_sym Hc')) as H4.
  apply app_inj_1 in Hc' as [-> _]; [done|lia].
Qed.

(** What the regex captures is the frontmatter block of the content. *)
Lemma matchFrontmatter_block (content yaml : jsstring) :
  matchFrontmatter content = Some yaml <-> frontmatterBlock content yaml.
Proof.
  assert (Hto : forall y, matchFrontmatter content = Some y -> frontmatterBlock content y).
  { intros y. unfold matchFrontmatter.
    destruct (startsWith DASHES content) eqn:Hstart; [|discriminate].
    apply startsWith_spec in Hstart as [t ->].
    change (drop 3 (DASHES ++ t)) with t.
    intros (ws & rest & -> & Hws & Hlong & Hshort)%afterDashes_greedy.
    exists ws, rest. split; [done|]. split; [done|]. split; [|done].
    intros ws' yaml' rest' Heq%app_inv_head. by apply (Hlong ws' yaml' rest'). }
  split; [apply Hto|].
  intros Hblock. pose proof Hblock as (ws & rest & -> & Hws & _).
  destruct (afterDashes_complete ws yaml rest Hws) as [y Hy].
  assert (Hm : matchFrontmatter (DASHES ++ ws ++ (LF :: yaml) ++ (LF :: DASHES) ++ rest) = Some y).
  { unfold matchFrontmatter.
    rewrite (proj2 (startsWith_spec DASHES _)) by (by eexists).
    by change (drop 3 (DASHES ++ ?t)) with t. }
  rewrite Hm. f_equal. eapply frontmatterBlock_unique; [by apply Hto|done].
Qed.

Lemma parseLine_entry (fm : gmap jsstring jsstring) (line : jsstring) :
  parseLine fm line =
  match lineEntry line with
  | Some kv => assignString kv.1 kv.2 fm
  | None => fm
  end.
Proof.
  unfold parseLine, lineEntry.
  by destruct (0 <? indexOf COLON line)%Z.
Qed.

Lemma omap_singleton {A B} (f : A -> option B) (a : A) :
  omap f [a] = match f a with Some b => [b] | None => [] end.
Proof. reflexivity. Qed.

Lemma frontmatter_fold_lookup (lines : list jsstring) (acc : gmap jsstring jsstring) (k : jsstring) :
  k <> protoName ->
  foldl parseLine acc lines !! k =
  match List.find (fun kv => bool_decide (kv.1 = k)) (rev (omap lineEntry lines)) with
  | Some kv => Some kv.2
  | None => acc !! k
  end.
Proof.
  intros Hk. induction lines as [|line lines IH] using rev_ind; [done|].
  rewrite foldl_app, omap_app, rev_app_distr, omap_singleton. cbn [foldl].
  rewrite parseLine_entry.
  destruct (lineEntry line) as [[k' v]|]; cbn [rev app fst snd]; [|exact IH].
  cbn [List.find fst]. rewrite assignString_lookup by done.
  destruct (bool_decide (k' = k)); [done|exact IH].
Qed.

Lemma parseFrontmatter_lookup (content yaml : jsstring) (k : jsstring) :
  matchFrontmatter content = Some yaml ->
  k <> protoName ->
  exists fm, parseFrontmatter content = Some fm /\ fm !! k = blockValue k yaml.
Proof.
  intros Hm Hk. unfold parseFrontmatter. rewrite Hm. eexists. split; [done|].
  rewrite frontmatter_fold_lookup by done. unfold blockValue.
  by destruct (List.find _ _).
Qed.

Lemma subAgentOf_agentOfFile (node : Node.t) (agentsDir file content : jsstring) :
  Node.readFileSync node (Node.join node agentsDir file) = Some content ->
  subAgentOf (Node.join node agentsDir file) (parseFrontmatter content) =
  agentOfFile node agentsDir file.
Proof.
  intros Hread. unfold agentOfFile. rewrite Hread.
  unfold parseFrontmatter.
  destruct (matchFrontmatter content) as [yaml|]; [|done].
  unfold subAgentOf.
  rewrite !frontmatter_fold_lookup by (by vm_compute).
  unfold blockValue. rewrite !lookup_empty.
  repeat match goal with
         | |- context [List.find ?p ?l] => destruct (List.find p l) as [[? ?]|]
         end; reflexivity.
Qed.

Lemma readSubAgents_all_readable (node : Node.t) (agentsDir : jsstring) (files : list jsstring) (acc : list SubAgentMetadata.t) :
  Forall (fun f => is_Some (Node.readFileSync node (Node.join node agentsDir f))) files ->
  readSubAgents node agentsDir files acc =
  Returned (acc ++ omap (agentOfFile node agentsDir) files).
Proof.
  intros Hall. revert acc.
  induction Hall as [|f files [content Hf] _ IH]; intros acc; simpl.
  - by rewrite app_nil_r.
  - rewrite Hf, IH, (subAgentOf_agentOfFile _ _ _ _ Hf).
    destruct (agentOfFile node agentsDir f); [by rewrite <- app_assoc|done].
Qed.

Lemma readSubAgents_unreadable (node : Node.t) (agentsDir : jsstring) (files : list jsstring) (acc : list SubAgentMetadata.t) :
  Exists (fun f => Node.readFileSync node (Node.join node agentsDir f) = None) files ->
  readSubAgents node agentsDir files acc = Thrown.
Proof.
  intros Hex. revert acc.
  induction Hex as [f files Hf|f files _ IH]; intros acc; simpl.
  - by rewrite Hf.
  - destruct (Node.readFileSync node (Node.join node agentsDir f)); [apply IH|done].
Qed.

Lemma agentOfFile_lists (node : Node.t) (agentsDir file : jsstring) (a : SubAgentMetadata.t) :
  agentOfFile node agentsDir file = Some a <-> listsAgent node agentsDir file a.
Proof.
  unfold agentOfFile, listsAgent. split.
  - destruct (Node.readFileSync node (Node.join node agentsDir file)) as [content|];
      [|discriminate].
    destruct (matchFrontmatter content) as [yaml|] eqn:Hm; [|discriminate].
    destruct (blockValue (lit "name") yaml) as [n|] eqn:Hn; [|discriminate].
    destruct (blockValue (lit "description") yaml) as [d|] eqn:Hd; [|discriminate].
    destruct (nonEmpty n) eqn:Hnn; [|discriminate].
    destruct (nonEmpty d) eqn:Hdn; [|discriminate].
    intros [= <-]. exists content, yaml, n, d.
    split; [done|]. split; [by apply matchFrontmatter_block|].
    split; [done|]. split; [by apply nonEmpty_true|].
    split; [done|]. split; [by apply nonEmpty_true|done].
  - intros (content & yaml & n & d & -> & Hblock & Hn & Hnn & Hd & Hdn & ->).
    apply matchFrontmatter_block in Hblock. rewrite Hblock, Hn, Hd.
    apply nonEmpty_true in Hnn, Hdn. by rewrite Hnn, Hdn.
Qed.

(** C9, as the code has it.  [getSubAgents] always returns.  The result is
    empty when the directory does not exist, when listing it fails, or
    when reading one of its [.md] entries fails.  Otherwise it holds, in
    directory order, one entry for every [.md] entry whose content has a
    frontmatter block that gives both [name] and [description] a non-empty
    value (the last line for a key deciding), and nothing else.  The
    frontmatter block is what [/^---\s*\n([\s\S]*?)\n---/] captures: the
    content begins with three dashes, white space and a line feed - as
    much white space, blank lines included, as still leaves a closing
    fence - and the block runs from there to the first line feed that
    three dashes follow; those dashes need not be a line of their own. *)
Theorem getSubAgents_spec (node : Node.t) (agentsDir : jsstring) :
  exists agents,
    getSubAgents node agentsDir = Returned agents /\
    (Node.existsSync node agentsDir = false -> agents = []) /\
    (Node.readdirSync node agentsDir = None -> agents = []) /\
    (forall entries,
       Node.existsSync node agentsDir = true ->
       Node.readdirSync node agentsDir = Some entries ->
       let files := List.filter (endsWith (lit ".md")) entries in
       (Exists (fun f => Node.readFileSync node (Node.join node agentsDir f) = None) files ->
        agents = []) /\
       (Forall (fun f => is_Some (Node.readFileSync node (Node.join node agentsDir f))) files ->
        agents = omap (agentOfFile node agentsDir) files)) /\
    (forall file a,
       agentOfFile node agentsDir file = Some a <-> listsAgent node agentsDir file a).
Proof.
  assert (Hlists : forall file a,
            agentOfFile node agentsDir file = Some a <-> listsAgent node agentsDir file a)
    by apply agentOfFile_lists.
  unfold getSubAgents, getSubAgentsTry.
  destruct (Node.existsSync node agentsDir) eqn:Hexists; simpl.
  - destruct (Node.readdirSync node agentsDir) as [entries|] eqn:Hdir.
    + destruct (readSubAgents node agentsDir (List.filter (endsWith (lit ".md")) entries) [])
        as [agents|] eqn:Hread.
      * exists agents. split; [done|]. split; [done|]. split; [done|].
        split; [|exact Hlists].
        intros entries' _ [= <-]. split.
        -- intros Hex. by rewrite (readSubAgents_unreadable _ _ _ _ Hex) in Hread.
        -- intros Hall. rewrite (readSubAgents_all_readable _ _ _ _ Hall) in Hread.
           by injection Hread as <-.
      * exists []. split; [done|]. split; [done|]. split; [done|].
        split; [|exact Hlists].
        intros entries' _ [= <-]. split; [done|].
        intros Hall. by rewrite (readSubAgents_all_readable _ _ _ _ Hall) in Hread.
    + exists []. split; [done|]. split; [done|]. split; [done|].
      split; [|exact Hlists]. by intros entries' _ [=].
  - exists []. split; [done|]. split; [done|]. split; [done|].
    split; [|exact Hlists]. by intros entries' [=].
Qed.

Lemma getSubAgents_spec_witness :
  exists agents,
    getSubAgents helperNode (lit "/home/u/.claude/agents") = Returned agents /\
    agents = [SubAgentMetadata.mk (lit "helper") (lit "helps") (Some (lit "sonnet")) None
                SUBAGENT_EMOJI (lit "/home/u/.claude/agents/helper.md")].
Proof.
  destruct (getSubAgents_spec helperNode (lit "/home/u/.claude/agents"))
    as (agents & Hret & _ & _ & Hlisted & _).
  exists agents. split; [exact Hret|].
  destruct (Hlisted [lit "helper.md"; lit "notes.txt"] eq_refl eq_refl) as [_ Hall].
  rewrite Hall.
  - by vm_compute.
  - repeat constructor. by eexists.
Defined.

(** The fences are what the regex makes of them: a file that opens with
    an empty block before the real one, and a file whose closing line is
    [---- not a fence], are both listed. *)
Lemma getSubAgents_loose_fences_listed :
  getSubAgents looseFenceNode (lit "/home/u/.claude/agents") =
  Returned
    [SubAgentMetadata.mk (lit "late") (lit "second block") None None
       SUBAGENT_EMOJI (lit "/home/u/.claude/agents/blank.md");
     SubAgentMetadata.mk (lit "loose") (lit "helps") None None
       SUBAGENT_EMOJI (lit "/home/u/.claude/agents/loose.md")].
Proof. by vm_compute. Qed.

(** C9, as stated, fails: [a.md] defines both a [name] and a
    [description] key, yet the [name:] line carries no value and the file
    gives no entry. *)
Lemma getSubAgents_blank_name_skipped :
  Node.readdirSync blankNameNode (lit "/home/u/.claude/agents") = Some [lit "a.md"] /\
  endsWith (lit ".md") (lit "a.md") = true /\
  definesNameAndDescription blankNameFile = true /\
  getSubAgents blankNameNode (lit "/home/u/.claude/agents") = Returned [].
Proof. by vm_compute. Qed.

(** ** Request Correlator *)

Section CorrelatorFacts.
Import Correlator.

Lemma idsFrom_S (first : N) (n : nat) :
  idsFrom first (S n) = first :: idsFrom (first + 1) n.
Proof.
  unfold idsFrom. cbn [seq fmap list_fmap]. f_equal; [lia|].
  rewrite <- seq_shift, <- list_fmap_compose.
  apply list_fmap_ext. intros _ k _. simpl. lia.
Qed.

Lemma idsFrom_bounds (first : N) (n : nat) (i : N) :
  i ∈ idsFrom first n <-> first <= i < first + N.of_nat n.
Proof.
  unfold idsFrom. rewrite list_elem_of_fmap. split.
  - intros (k & -> & Hk%elem_of_seq). lia.
  - intros Hi. exists (N.to_nat (i - first)). split; [lia|].
    apply elem_of_seq. lia.
Qed.

Lemma idsFrom_NoDup (first : N) (n : nat) : NoDup (idsFrom first n).
Proof.
  revert first. induction n as [|n IH]; intros first.
  - constructor.
  - rewrite idsFrom_S. constructor; [|apply IH].
    rewrite idsFrom_bounds. lia.
Qed.

Lemma pendingIds_issue (now : N) (c : t) :
  pendingIds (issue now c).2 = pendingIds c ++ [nextId c].
Proof. unfold pendingIds, issue. simpl. by rewrite fmap_app. Qed.

Lemma pendingIds_resolve (i : N) (o : Outcome) (c : t) :
  pendingIds (resolve i o c).2 `sublist_of` pendingIds c.
Proof.
  unfold resolve, pendingIds. destruct (isPending i c); simpl; [|done].
  induction (pending c) as [|p ps IH]; simpl; [done|].
  destruct (negb (id p =? i)); simpl; [by apply sublist_skip|by apply sublist_cons].
Qed.

Lemma isPending_true (i : N) (c : t) :
  isPending i c = true <-> i ∈ pendingIds c.
Proof.
  unfold isPending, pendingIds. rewrite existsb_exists, list_elem_of_fmap.
  split.
  - intros (p & Hp%list_elem_of_In & Heq%N.eqb_eq). by exists p.
  - intros (p & -> & Hp%list_elem_of_In). exists p. by rewrite N.eqb_refl.
Qed.

Lemma resolve_removes (i : N) (o : Outcome) (c : t) :
  i ∉ pendingIds (resolve i o c).2.
Proof.
  unfold resolve. destruct (isPending i c) eqn:Hp; simpl.
  - unfold pendingIds. simpl. rewrite list_elem_of_fmap.
    intros (p & -> & Hin%list_elem_of_In%filter_In).
    destruct Hin as [_ Hne]. by rewrite N.eqb_refl in Hne.
  - intros Hin%isPending_true. congruence.
Qed.

Lemma run_cons (c : t) (call : Call) (rest : list Call) :
  run c (call :: rest) =
  ((step c call).1 ++ (run (step c call).2 rest).1, (run (step c call).2 rest).2).
Proof.
  simpl. destruct (step c call) as [evs c']. simpl.
  by destruct (run c' rest).
Qed.

Lemma issuedIds_app (evs evs' : list Event) :
  issuedIds (evs ++ evs') = issuedIds evs ++ issuedIds evs'.
Proof. apply omap_app. Qed.

Lemma settledIds_app (evs evs' : list Event) :
  settledIds (evs ++ evs') = settledIds evs ++ settledIds evs'.
Proof. apply omap_app. Qed.

Lemma failAll_events (reason : jsstring) (c : t) :
  issuedIds (failAll reason c).1 = [] /\
  settledIds (failAll reason c).1 = pendingIds c.
Proof.
  unfold failAll, pendingIds. simpl.
  induction (pending c) as [|p ps [IH1 IH2]]; [done|].
  split; [exact IH1|]. rewrite !fmap_cons. simpl.
  by rewrite <- IH2.
Qed.

(** What one call publishes and how it moves the counter. *)
Lemma step_events (c : t) (call : Call) :
  issuedIds (step c call).1 = match call with Issue _ _ _ => [nextId c] | _ => [] end /\
  nextId (step c call).2 = match call with Issue _ _ _ => nextId c + 1 | _ => nextId c end /\
  (forall i, i ∈ settledIds (step c call).1 -> i ∈ pendingIds c) /\
  (forall i, i ∈ pendingIds (step c call).2 ->
             i ∈ pendingIds c \/ i ∈ issuedIds (step c call).1).
Proof.
  destruct call as [m ps now|i o|reason].
  - change (step c (Issue m ps now)) with ([Issued (nextId c)], (issue now c).2).
    cbn [fst snd]. rewrite (pendingIds_issue now c).
    split; [done|]. split; [done|]. split; [by intros i ?%elem_of_nil|].
    intros i. rewrite elem_of_app. tauto.
  - pose proof (pendingIds_resolve i o c) as Hsub.
    simpl. unfold resolve in *. destruct (isPending i c) eqn:Hp; simpl in *.
    + repeat split.
      * intros j ->%list_elem_of_singleton. by apply isPending_true.
      * intros j Hj. left. eapply elem_of_sublist; [exact Hj|exact Hsub].
    + repeat split; [by intros j ?%elem_of_nil|tauto].
  - destruct (failAll_events reason c) as [Hi Hs].
    cbn [step]. rewrite Hi, Hs. simpl. repeat split; [done|].
    by intros i ?%elem_of_nil.
Qed.

Lemma step_wf (c : t) (call : Call) :
  correlatorWf c -> correlatorWf (step c call).2.
Proof.
  intros [Hnd Hlt]. destruct call as [m ps now|i o|reason].
  - change (step c (Issue m ps now)) with ([Issued (nextId c)], (issue now c).2).
    cbn [snd]. split.
    + rewrite (pendingIds_issue now c).
      apply NoDup_app. split; [done|]. split; [|apply NoDup_singleton].
      intros j Hj ->%list_elem_of_singleton.
      apply (proj1 (Forall_forall _ _) Hlt) in Hj. lia.
    + rewrite (pendingIds_issue now c).
      apply Forall_app. split; [|constructor; [simpl; lia|constructor]].
      eapply Forall_impl; [exact Hlt|]. simpl. intros; lia.
  - pose proof (pendingIds_resolve i o c) as Hsub.
    assert (Hn : nextId (step c (Resolve i o)).2 = nextId c)
      by (simpl; unfold resolve; by destruct (isPending i c)).
    split.
    + eapply sublist_NoDup; [exact Hnd|exact Hsub].
    + rewrite Hn. apply Forall_forall. intros j Hj.
      apply (proj1 (Forall_forall _ _) Hlt).
      eapply elem_of_sublist; [exact Hj|exact Hsub].
  - split; [apply NoDup_nil_2|constructor].
Qed.

Lemma create_wf : correlatorWf create.
Proof. split; [apply NoDup_nil_2|constructor]. Qed.

(** The ids a run hands out are consecutive from the counter; whatever
    it settles was pending at the start or handed out since. *)
Lemma run_spec (calls : list Call) (c : t) :
  correlatorWf c ->
  issuedIds (run c calls).1 = idsFrom (nextId c) (length (issuedIds (run c calls).1)) /\
  nextId (run c calls).2 = nextId c + N.of_nat (length (issuedIds (run c calls).1)) /\
  correlatorWf (run c calls).2 /\
  (forall i, i ∈ settledIds (run c calls).1 -> i ∈ pendingIds c \/ nextId c <= i) /\
  (forall i, i ∈ pendingIds (run c calls).2 ->
             i ∈ pendingIds c \/ i ∈ issuedIds (run c calls).1).
Proof.
  revert c. induction calls as [|call calls IH]; intros c Hwf.
  - simpl. split; [done|]. split; [lia|]. split; [done|].
    split; [by intros i ?%elem_of_nil|tauto].
  - rewrite run_cons. cbn [fst snd].
    destruct (step_events c call) as (Hiss & Hnext & Hset & Hpend).
    destruct (IH _ (step_wf c call Hwf)) as (IHiss & IHnext & IHwf & IHset & IHpend).
    rewrite issuedIds_app, settledIds_app, length_app.
    split; [|split; [|split; [done|split]]].
    + rewrite IHiss at 1. rewrite Hnext, Hiss.
      destruct call; simpl; [by rewrite idsFrom_S|done..].
    + rewrite IHnext, Hnext, Hiss. destruct call; simpl; lia.
    + intros i [Hi|Hi]%elem_of_app; [left; by apply Hset|].
      apply IHset in Hi as [Hi|Hi].
      * apply Hpend in Hi as [Hi|Hi]; [by left|right].
        rewrite Hiss in Hi. destruct call; simpl in Hi;
          [apply list_elem_of_singleton in Hi; lia|by apply elem_of_nil in Hi..].
      * right. rewrite Hnext in Hi. destruct call; lia.
    + intros i Hi. apply IHpend in Hi as [Hi|Hi].
      * apply Hpend in Hi as [Hi|Hi]; [by left|right].
        apply elem_of_app. by left.
      * right. apply elem_of_app. by right.
Qed.

(** C5. Whatever calls a fresh Correlator serves, the ids it hands out
    are 1, 2, 3, ... in this order - so the counter starts at 1, only
    grows, and no id is handed out twice, whether or not earlier requests
    completed - and at no time are two pending requests filed under one
    id; every pending id is one that was handed out. *)
Theorem correlator_ids_never_reused (calls : list Call) :
  let ids := issuedIds (run create calls).1 in
  ids = N.of_nat <$> seq 1 (length ids) /\
  NoDup ids /\
  nextId (run create calls).2 = N.of_nat (S (length ids)) /\
  NoDup (pendingIds (run create calls).2) /\
  (forall i, i ∈ pendingIds (run create calls).2 -> i ∈ ids).
Proof.
  destruct (run_spec calls create create_wf) as (Hiss & Hnext & [Hnd _] & _ & Hpend).
  cbn zeta. split; [|split; [|split; [|split]]].
  - rewrite Hiss at 1. unfold idsFrom. simpl.
    rewrite <- seq_shift, <- list_fmap_compose.
    apply list_fmap_ext. intros _ k _. simpl. lia.
  - rewrite Hiss. apply idsFrom_NoDup.
  - rewrite Hnext. simpl. lia.
  - exact Hnd.
  - intros i Hi. apply Hpend in Hi as [Hi|Hi]; [by apply elem_of_nil in Hi|done].
Qed.

End CorrelatorFacts.

Section FailAllFacts.
Import Correlator.

Lemma run_issueAll (requests : list (jsstring * JSValue * N)) (c : t) :
  pendingIds (run c (issueAll requests)).2 =
    pendingIds c ++ issuedIds (run c (issueAll requests)).1 /\
  length (issuedIds (run c (issueAll requests)).1) = length requests.
Proof.
  revert c. induction requests as [|[[m ps] now] requests IH]; intros c.
  - simpl. by rewrite app_nil_r.
  - unfold issueAll. rewrite fmap_cons, run_cons. fold (issueAll requests).
    cbn [fst snd]. rewrite issuedIds_app, length_app.
    change (step c (Issue m ps now)) with ([Issued (nextId c)], (issue now c).2).
    cbn [fst snd]. destruct (IH (issue now c).2) as [IHp IHl].
    rewrite IHp, IHl, (pendingIds_issue now c), <- app_assoc. by split.
Qed.

(** After [failAll] nothing is pending, whatever was before. *)
Lemma failAll_empties (reason : jsstring) (c : t) :
  pendingIds (failAll reason c).2 = [] /\
  nextId (failAll reason c).2 = nextId c.
Proof. done. Qed.

(** C6. Let any number of requests be issued on a fresh Correlator and
    none be answered.  Then [failAll reason] settles the sink of every one
    of them, each exactly once (the ids are pairwise distinct and each
    occurs once in what is published), with the failure carrying
    [reason]; nothing stays pending, so a second [failAll] settles
    nothing; and whatever calls follow, none of these requests is ever
    settled again. *)
Theorem failAll_settles_each_once (requests : list (jsstring * JSValue * N)) (reason : jsstring) (later : list Call) :
  let c0 := (run create (issueAll requests)).2 in
  let ids := issuedIds (run create (issueAll requests)).1 in
  let swept := failAll reason c0 in
  length ids = length requests /\
  NoDup ids /\
  pendingIds c0 = ids /\
  swept.1 = (fun i => Settled i (Failed reason)) <$> ids /\
  pending swept.2 = [] /\
  (forall reason', (failAll reason' swept.2).1 = []) /\
  (forall i, i ∈ ids -> i ∉ settledIds (run swept.2 later).1).
Proof.
  destruct (run_issueAll requests create) as [Hpend Hlen].
  destruct (run_spec (issueAll requests) create create_wf)
    as (Hiss & Hnext & [Hnd Hlt] & _ & _).
  cbn zeta. simpl in Hpend.
  split; [exact Hlen|]. split; [rewrite Hiss; apply idsFrom_NoDup|].
  split; [exact Hpend|]. split.
  { unfold failAll. cbn [fst]. rewrite <- Hpend. unfold pendingIds.
    by rewrite <- list_fmap_compose. }
  split; [done|]. split; [done|].
  intros i Hi Hsettled.
  assert (Hwf : correlatorWf (failAll reason (run create (issueAll requests)).2).2)
    by (split; [apply NoDup_nil_2|constructor]).
  destruct (run_spec later _ Hwf) as (_ & _ & _ & Hset & _).
  apply Hset in Hsettled as [Hin|Hge]; [by apply elem_of_nil in Hin|].
  cbn [failAll snd nextId] in Hge.
  rewrite <- Hpend in Hi.
  apply (proj1 (Forall_forall _ _) Hlt) in Hi. lia.
Qed.

End FailAllFacts.

(** ** Message Codec *)

Section CodecFacts.
Import Codec.
Variable parseJson : bytes -> option JSValue.

Lemma frames_app (partial chunk chunk' : bytes) :
  frames partial (chunk ++ chunk') =
  ((frames partial chunk).1 ++ (frames (frames partial chunk).2 chunk').1,
   (frames (frames partial chunk).2 chunk').2).
Proof.
  revert partial. induction chunk as [|b chunk IH]; intros partial; simpl.
  - by destruct (frames partial chunk').
  - destruct (isNewline b).
    + rewrite IH. by destruct (frames [] chunk).
    + apply IH.
Qed.

Lemma decode_app (d : Decoder) (chunk chunk' : bytes) :
  decode parseJson d (chunk ++ chunk') =
  ((decode parseJson d chunk).1 ++ (decode parseJson (decode parseJson d chunk).2 chunk').1,
   (decode parseJson (decode parseJson d chunk).2 chunk').2).
Proof.
  unfold decode. rewrite frames_app.
  destruct (frames (fragment d) chunk) as [lines tail]. simpl.
  destruct (frames tail chunk') as [lines' tail']. simpl.
  by rewrite fmap_app.
Qed.

Lemma decode_nil (d : Decoder) : decode parseJson d [] = ([], d).
Proof. by destruct d. Qed.

Lemma deliver_concat (d : Decoder) (chunks : list bytes) :
  deliver parseJson d chunks = decode parseJson d (concat chunks).
Proof.
  revert d. induction chunks as [|chunk chunks IH]; intros d.
  - simpl. by rewrite decode_nil.
  - cbn [deliver concat]. rewrite decode_app.
    destruct (decode parseJson d chunk) as [out d']. cbn [fst snd].
    rewrite IH. by destruct (decode parseJson d' (concat chunks)).
Qed.

(** C7. However an inbound byte stream is cut into delivery calls, the
    decoder publishes the same messages and protocol errors, in the same
    order, and ends with the same buffered fragment, as when the stream
    arrives in one piece. *)
Theorem decode_boundary_independent (chunks : list bytes) :
  deliver parseJson start chunks = deliver parseJson start [concat chunks].
Proof.
  rewrite !deliver_concat. simpl. by rewrite app_nil_r.
Qed.

End CodecFacts.

(** ** Session State Machine *)

Section SessionFacts.
Import Session.

Lemma sendTurn_busy (prompt : jsstring) (context : JSValue) (now : N) (s : t) :
  state s = Busy -> sendTurn prompt context now s = (Failure SessionBusyError, s).
Proof. unfold sendTurn. by intros ->. Qed.

Lemma step_turnsMatchState (s : t) (i : Input) :
  turnsMatchState s -> turnsMatchState (step s i).2.
Proof.
  unfold turnsMatchState. destruct s as [sid cfg st perm corr ts].
  destruct i as [now|ok|prompt context now| | |e|rid oid|rid o|detail| ];
    cbn [step].
  - unfold initialize. cbn [state]. by destruct st.
  - unfold handshakeResponse. cbn [state]. destruct st; try done. by destruct ok.
  - unfold sendTurn. cbn [state]. destruct st; try done.
    cbn. by intros ->.
  - unfold cancel. cbn [state]. by destruct st.
  - unfold graceElapsed. cbn [state]. by destruct st.
  - unfold streamed, turnEnded. cbn [state]. destruct st; try done; by destruct e.
  - unfold resolvePermission. cbn [pendingPermission].
    destruct perm as [request|]; [|done].
    by destruct (PermissionRequest.requestId request =? rid).
  - unfold response. cbn [correlator].
    by destruct (Correlator.resolve rid o corr).
  - unfold transportExit. cbn [state]. by destruct st.
  - unfold close. cbn [state]. by destruct st.
Qed.

Lemma after_turnsMatchState (inputs : list Input) (s : t) :
  turnsMatchState s -> turnsMatchState (after s inputs).
Proof.
  revert s. induction inputs as [|i inputs IH]; intros s Hs; [done|].
  apply IH, step_turnsMatchState, Hs.
Qed.

(** C4. In every session reachable from a new one, at most one turn is in
    flight; and when the session is [Busy], [sendTurn] fails with
    [SessionBusyError] and hands back the very same session: same state,
    same turn in flight, nothing issued, nothing queued. *)
Theorem sendTurn_while_busy (sessionId : jsstring) (config : AgentConfig.t) (inputs : list Input) (prompt : jsstring) (context : JSValue) (now : N) :
  let s := after (create sessionId config) inputs in
  (length (turns s) <= 1)%nat /\
  (state s = Busy ->
   step s (SendTurn prompt context now) = (Failure SessionBusyError, s) /\
   length (turns s) = 1%nat).
Proof.
  cbn zeta.
  pose proof (after_turnsMatchState inputs (create sessionId config) eq_refl) as Hinv.
  unfold turnsMatchState in Hinv. split.
  - destruct (state (after (create sessionId config) inputs)); rewrite Hinv; simpl; lia.
  - intros Hbusy. rewrite Hbusy in Hinv. split; [|exact Hinv].
    by apply sendTurn_busy.
Qed.

Lemma sendTurn_while_busy_witness :
  state busySession = Busy /\
  (length (turns busySession) <= 1)%nat /\
  step busySession (SendTurn (lit "again") JUndefined 2) = (Failure SessionBusyError, busySession) /\
  length (turns busySession) = 1%nat.
Proof.
  split; [reflexivity|].
  destruct (sendTurn_while_busy (lit "session-1")
              (toAgentConfig (BaseAgentSettings.mk (lit "claude-code-acp") (lit "Claude Code")
                                (lit "/usr/bin/echo-agent") [] [])
                             (lit "/vault"))
              [Initialize 0; HandshakeResponse true; SendTurn (lit "hello") JUndefined 1]
              (lit "again") JUndefined 2) as [Hle Hbusy].
  split; [exact Hle|]. apply Hbusy. reflexivity.
Defined.

End SessionFacts.

(* ===================================================================== *)
(** * Part III - further properties of the sources                        *)
(* ===================================================================== *)

(** ** settings-utils: what the two sanitizers guarantee *)

Lemma pushPair_Some (k v : JSValue) (p : AgentEnvVar) :
  pushPair k v = Some p -> key p <> [] /\ trimmed (key p).
Proof.
  destruct k; try discriminate. simpl.
  destruct (nonEmpty (trim s)) eqn:Hne; [|discriminate].
  intros [= <-]. simpl. split; [by apply nonEmpty_true|apply trim_trimmed].
Qed.

Lemma collectPairs_keys (v : JSValue) :
  Forall (fun p => key p <> [] /\ trimmed (key p)) (collectPairs v).
Proof.
  unfold collectPairs. destruct (negb (truthy v)); [constructor|].
  destruct v; try constructor.
  - apply Forall_forall. intros p (entry & _ & Hp)%list_elem_of_omap.
    destruct entry; try discriminate. by eapply pushPair_Some.
  - apply Forall_forall. intros p (kv & _ & Hp)%list_elem_of_omap.
    by eapply pushPair_Some.
Qed.

Lemma dedupe_Forall (P : AgentEnvVar -> Prop) (seen : gset jsstring) (pairs : list AgentEnvVar) :
  Forall P pairs -> Forall P (dedupe seen pairs).
Proof.
  intros Hall. apply Forall_forall. intros p Hp.
  apply (proj1 (Forall_forall _ _) Hall).
  eapply elem_of_sublist; [exact Hp|apply dedupe_sublist].
Qed.

(** X1. Whatever value it is given - an array, an object, a primitive,
    entries of any shape - [normalizeEnvVars] returns pairs whose keys are
    pairwise distinct, non-empty and trimmed. *)
Theorem normalizeEnvVars_normalized (v : JSValue) :
  normalizedEnv (normalizeEnvVars v).
Proof.
  unfold normalizeEnvVars. split.
  - apply dedupe_NoDup.
  - apply dedupe_Forall, collectPairs_keys.
Qed.

Lemma dedupe_fresh (seen : gset jsstring) (pairs : list AgentEnvVar) :
  NoDup (key <$> pairs) ->
  (forall p, p ∈ pairs -> key p ∉ seen) ->
  dedupe seen pairs = pairs.
Proof.
  revert seen. induction pairs as [|p pairs IH]; intros seen Hnd Hfresh; [done|].
  rewrite fmap_cons in Hnd. apply NoDup_cons in Hnd as [Hp Hnd]. simpl.
  rewrite bool_decide_eq_false_2 by (apply Hfresh; by left).
  f_equal. apply IH; [done|].
  intros q Hq. rewrite elem_of_union, elem_of_singleton.
  intros [Heq|Hin].
  - apply Hp. rewrite <- Heq. apply list_elem_of_fmap. by exists q.
  - revert Hin. apply Hfresh. by right.
Qed.

Lemma cleanedPair_fixed (e : AgentEnvVar) :
  key e <> [] -> trimmed (key e) -> cleanedPair e = Some e.
Proof.
  intros Hne Ht. unfold cleanedPair. rewrite (trim_fixed _ Ht).
  apply nonEmpty_true in Hne. rewrite Hne. by destruct e.
Qed.

Lemma omap_fixed {A} (f : A -> option A) (l : list A) :
  Forall (fun a => f a = Some a) l -> omap f l = l.
Proof.
  induction 1 as [|a l Ha _ IH]; [done|].
  rewrite omap_cons_case, Ha. by f_equal.
Qed.

(** A normalized list is left as it is. *)
Lemma normalizeEnvVars_fixed (env : list AgentEnvVar) :
  normalizedEnv env -> normalizeEnvVars (envVarArray env) = env.
Proof.
  intros [Hnd Hkeys]. unfold normalizeEnvVars.
  rewrite collectPairs_envVarArray, omap_fixed.
  - apply dedupe_fresh; [done|]. intros p _. apply not_elem_of_empty.
  - eapply Forall_impl; [exact Hkeys|]. intros e [Hne Ht]. by apply cleanedPair_fixed.
Qed.

(** X2. Normalizing is idempotent: storing the result of
    [normalizeEnvVars] as an array of [{key, value}] objects and
    normalizing that again changes nothing. *)
Theorem normalizeEnvVars_idempotent (v : JSValue) :
  normalizeEnvVars (envVarArray (normalizeEnvVars v)) = normalizeEnvVars v.
Proof.
  apply normalizeEnvVars_fixed. unfold normalizeEnvVars. split.
  - apply dedupe_NoDup.
  - apply dedupe_Forall, collectPairs_keys.
Qed.

(** X3. The two stored shapes agree: a plain object [{K: V, ...}] is
    normalized exactly like the array of its entries written as
    [{key: K, value: V}] objects, in enumeration order. *)
Theorem normalizeEnvVars_object_as_entries (props : list (jsstring * JSValue)) :
  normalizeEnvVars (JObject props) = normalizeEnvVars (entriesArray props).
Proof.
  unfold normalizeEnvVars, collectPairs, entriesArray. simpl. f_equal.
  symmetry. apply list_omap_ext, Forall2_fmap_l, Forall_Forall2_diag, Forall_forall.
  by intros [k v] _.
Qed.

Lemma keptArg_fixed (s : jsstring) :
  s <> [] -> trimmed s -> keptArg (JString s) = Some s.
Proof.
  intros Hne Ht. simpl. rewrite (trim_fixed _ Ht).
  apply nonEmpty_true in Hne. by rewrite Hne.
Qed.

Lemma sanitizeArgs_fixed (args : list jsstring) :
  Forall (fun s => s <> [] /\ trimmed s) args ->
  sanitizeArgs (JArray (JString <$> args)) = args.
Proof.
  intros Hargs. rewrite sanitizeArgs_array.
  induction Hargs as [|s args [Hne Ht] _ IH]; [done|].
  rewrite fmap_cons, omap_cons_case, (keptArg_fixed s Hne Ht). by f_equal.
Qed.

Lemma sanitizeArgs_clean (v : JSValue) :
  Forall (fun s => s <> [] /\ trimmed s) (sanitizeArgs v).
Proof.
  destruct v; try constructor.
  - rewrite sanitizeArgs_string. apply omap_keptArg_trimmed.
  - rewrite sanitizeArgs_array. apply omap_keptArg_trimmed.
Qed.

(** X4. Sanitizing is idempotent: the arguments [sanitizeArgs] returns,
    stored as an array of strings and sanitized again, come back
    unchanged. *)
Theorem sanitizeArgs_idempotent (v : JSValue) :
  sanitizeArgs (JArray (JString <$> sanitizeArgs v)) = sanitizeArgs v.
Proof. apply sanitizeArgs_fixed, sanitizeArgs_clean. Qed.

(** ** AgentClientSettingTab: the text areas *)

Lemma trim_elem_of (x : N) (s : jsstring) : x ∈ trim s -> x ∈ s.
Proof.
  unfold trim. intros Hx.
  eapply elem_of_suffix; [|apply trimStart_suffix].
  eapply elem_of_prefix; [exact Hx|apply trimEnd_prefix].
Qed.

Lemma trimmed_last_not_CR (s : jsstring) : trimmed s -> last s <> Some CR.
Proof. intros [_ Hl] Hc. by apply Hl in Hc. Qed.

Lemma splitLines_LF_free (p : jsstring) : LF ∉ p -> splitLines p = [p].
Proof.
  induction p as [|c p IH]; [done|]. intros Hc.
  apply not_elem_of_cons in Hc as [Hc Hp].
  rewrite splitLines_cons, (IH Hp).
  rewrite (proj2 (N.eqb_neq c LF)) by congruence.
  destruct p as [|d p]; [by rewrite andb_false_r|].
  cbn [startsWith].
  apply not_elem_of_cons in Hp as [Hd _].
  rewrite (proj2 (N.eqb_neq LF d)) by congruence.
  by rewrite andb_false_r.
Qed.

Lemma splitLines_app_LF (p s : jsstring) :
  LF ∉ p -> last p <> Some CR ->
  splitLines (p ++ LF :: s) = p :: splitLines s.
Proof.
  induction p as [|c p IH]; intros Hc Hlast.
  - simpl app. rewrite splitLines_cons. by rewrite N.eqb_refl.
  - apply not_elem_of_cons in Hc as [Hc Hp].
    simpl app. rewrite splitLines_cons.
    rewrite (proj2 (N.eqb_neq c LF)) by congruence.
    destruct p as [|d p].
    + change ([] ++ LF :: s) with (LF :: s).
      rewrite (proj2 (N.eqb_neq c CR)) by (intros ->; by apply Hlast).
      cbn [andb]. by rewrite splitLines_cons, N.eqb_refl.
    + rewrite IH; [|done|by rewrite last_cons_cons in Hlast].
      simpl app. cbn [startsWith].
      apply not_elem_of_cons in Hp as [Hd _].
      rewrite (proj2 (N.eqb_neq LF d)) by congruence.
      by rewrite andb_false_r.
Qed.

Lemma splitLines_joinLF (lines : list jsstring) :
  lines <> [] ->
  Forall (fun p => (LF ∉ p) /\ last p <> Some CR) lines ->
  splitLines (joinLF lines) = lines.
Proof.
  intros Hne Hall. induction Hall as [|p lines [Hp Hlast] Hall IH]; [done|].
  destruct lines as [|q lines].
  - simpl. by apply splitLines_LF_free.
  - change (joinLF (p :: q :: lines)) with (p ++ LF :: joinLF (q :: lines)).
    rewrite splitLines_app_LF by done. f_equal. by apply IH.
Qed.

Lemma splitLines_pieces (s : jsstring) : Forall (fun p => LF ∉ p) (splitLines s).
Proof.
  pose proof (splitLF_join s) as (_ & Hfree & _).
  pose proof (splitLines_splitLF s) as Hrel.
  revert Hfree. induction Hrel as [|p q ps qs Hpq _ IH]; [constructor|].
  intros [Hq Hqs]%Forall_cons. constructor; [|by apply IH].
  destruct Hpq as [->| ->]; [done|].
  intros Hin. apply Hq, elem_of_app. by left.
Qed.

Lemma filter_fixed {A} (f : A -> bool) (l : list A) :
  Forall (fun a => f a = true) l -> List.filter f l = l.
Proof.
  induction 1 as [|a l Ha _ IH]; [done|]. simpl. rewrite Ha. by f_equal.
Qed.

Lemma map_fixed {A} (f : A -> A) (l : list A) :
  Forall (fun a => f a = a) l -> List.map f l = l.
Proof.
  induction 1 as [|a l Ha _ IH]; [done|]. simpl. by rewrite Ha, IH.
Qed.

Lemma lines_read_back (args : list jsstring) :
  Forall lineArg args ->
  List.filter nonEmpty (List.map trim (splitLines (joinLF args))) = args.
Proof.
  intros Hargs. destruct args as [|a args]; [done|].
  rewrite splitLines_joinLF; [|done|].
  - rewrite map_fixed, filter_fixed; [done|..].
    + eapply Forall_impl; [exact Hargs|]. intros s (Hne & _ & _). by apply nonEmpty_true.
    + eapply Forall_impl; [exact Hargs|]. intros s (_ & Ht & _). by apply trim_fixed.
  - eapply Forall_impl; [exact Hargs|]. intros s (_ & Ht & Hlf).
    split; [done|by apply trimmed_last_not_CR].
Qed.

(** X5. The "Arguments" text area round-trips: arguments that are
    non-empty, trimmed and free of line feeds, shown one per line by
    [formatArgs], are read back by [parseArgs] exactly as they were. *)
Theorem parseArgs_formatArgs (args : list jsstring) :
  Forall lineArg args -> parseArgs (formatArgs args) = args.
Proof.
  intros Hargs. unfold parseArgs, formatArgs.
  by apply lines_read_back.
Qed.

Lemma parseArgs_formatArgs_witness :
  parseArgs (formatArgs [lit "--model"; lit "sonnet 4"]) = [lit "--model"; lit "sonnet 4"].
Proof.
  apply (parseArgs_formatArgs [lit "--model"; lit "sonnet 4"]).
  repeat constructor; try (by vm_compute);
    try (intros c [= <-]; reflexivity);
    refine (bool_decide_unpack _ _); by vm_compute.
Defined.

Lemma parseArgs_lines (value : jsstring) : Forall lineArg (parseArgs value).
Proof.
  unfold parseArgs. apply Forall_forall. intros a Ha.
  apply list_elem_of_In, filter_In in Ha as [Hin Hne].
  apply in_map_iff in Hin as (p & <- & Hp%list_elem_of_In).
  split; [by apply nonEmpty_true|]. split; [apply trim_trimmed|].
  intros Hlf%trim_elem_of.
  by apply (proj1 (Forall_forall _ _) (splitLines_pieces value) p Hp).
Qed.

(** X6. What [parseArgs] reads is stable under the text area: every
    argument it returns is non-empty, trimmed and free of line feeds, and
    showing the result with [formatArgs] and reading it again gives the
    same arguments. *)
Theorem parseArgs_stable (value : jsstring) :
  Forall lineArg (parseArgs value) /\
  parseArgs (formatArgs (parseArgs value)) = parseArgs value.
Proof.
  split; [apply parseArgs_lines|].
  unfold formatArgs. unfold parseArgs at 1.
  apply lines_read_back, parseArgs_lines.
Qed.

Lemma indexOf_lower (c : N) (s : jsstring) : (-1 <= indexOf c s)%Z.
Proof.
  induction s as [|d s IH]; simpl; [lia|].
  destruct (d =? c); [lia|]. destruct (indexOf c s <? 0)%Z eqn:Hi; lia.
Qed.

Lemma indexOf_app_fresh (c : N) (p s : jsstring) :
  c ∉ p -> indexOf c (p ++ c :: s) = Z.of_nat (length p).
Proof.
  induction p as [|d p IH]; intros Hc.
  - simpl. by rewrite N.eqb_refl.
  - apply not_elem_of_cons in Hc as [Hd Hp]. simpl.
    rewrite (proj2 (N.eqb_neq d c)) by congruence.
    rewrite (IH Hp).
    destruct (Z.of_nat (length p) <? 0)%Z eqn:Hlt; lia.
Qed.

Lemma indexOf_take (c : N) (s : jsstring) :
  (0 <= indexOf c s)%Z -> c ∉ take (Z.to_nat (indexOf c s)) s.
Proof.
  induction s as [|d s IH]; simpl; [lia|].
  destruct (d =? c) eqn:Hd; [intros _; apply not_elem_of_nil|].
  apply N.eqb_neq in Hd.
  destruct (indexOf c s <? 0)%Z eqn:Hi; [lia|]. intros _.
  apply Z.ltb_ge in Hi.
  replace (Z.to_nat (indexOf c s + 1)) with (S (Z.to_nat (indexOf c s))) by lia.
  simpl. apply not_elem_of_cons. split; [congruence|by apply IH].
Qed.

Lemma slice_elem_of (x : N) (from to : Z) (s : jsstring) :
  x ∈ slice from to s -> x ∈ s.
Proof.
  unfold slice. intros Hx.
  eapply elem_of_sublist; [|apply sublist_drop].
  eapply elem_of_sublist; [exact Hx|apply sublist_take].
Qed.

Lemma sliceFrom_elem_of (x : N) (from : Z) (s : jsstring) :
  x ∈ sliceFrom from s -> x ∈ s.
Proof. unfold sliceFrom. intros Hx. eapply elem_of_sublist; [exact Hx|apply sublist_drop]. Qed.

(** Every pair the loop of [parseEnv] pushes fits on one [KEY=VALUE]
    line. *)
Lemma parseEnvLine_Some (line : jsstring) (e : AgentEnvVar) :
  LF ∉ line -> parseEnvLine line = Some e -> lineEnvVar e.
Proof.
  intros Hlf. unfold parseEnvLine.
  destruct (nonEmpty (trim line)); [|discriminate]. cbn [negb].
  pose proof (indexOf_lower EQUALS (trim line)) as Hlow.
  destruct (indexOf EQUALS (trim line) =? -1)%Z eqn:Hd; [discriminate|].
  apply Z.eqb_neq in Hd.
  destruct (nonEmpty (trim (slice 0 (indexOf EQUALS (trim line)) (trim line)))) eqn:Hk;
    [|discriminate].
  cbn [negb]. intros [= <-]. cbn [key value].
  split; [by apply nonEmpty_true|]. split; [apply trim_trimmed|].
  split.
  { intros Hin%trim_elem_of. unfold slice in Hin.
    rewrite Nat.sub_0_r in Hin. change (Z.to_nat 0) with 0%nat in Hin.
    rewrite drop_0 in Hin. revert Hin. apply indexOf_take. lia. }
  split; [by intros Hin%trim_elem_of%slice_elem_of%trim_elem_of|].
  split; [apply trim_trimmed|].
  by intros Hin%trim_elem_of%sliceFrom_elem_of%trim_elem_of.
Qed.

Lemma trimmed_app (p q : jsstring) (c : N) :
  p <> [] -> trimmed p -> isWhiteSpace c = false -> trimmed q ->
  trimmed (p ++ c :: q).
Proof.
  intros Hp [Hhead _] Hc [_ Hlast]. split.
  - destruct p as [|d p]; [done|]. apply Hhead.
  - intros x. rewrite last_app_cons.
    destruct q as [|d q]; [by intros [= <-]|].
    rewrite last_cons_cons. apply Hlast.
Qed.

(** A pair that fits on one line is read back from its line. *)
Lemma parseEnvLine_format (e : AgentEnvVar) :
  lineEnvVar e -> parseEnvLine (key e ++ (EQUALS :: value e)) = Some e.
Proof.
  intros (Hne & Hk & Heq & _ & Hv & _). unfold parseEnvLine.
  rewrite (trim_fixed (key e ++ (EQUALS :: value e)))
    by (by apply trimmed_app).
  destruct (key e) as [|c k] eqn:Hkey; [done|]. cbn [app nonEmpty negb].
  change (c :: k ++ EQUALS :: value e) with ((c :: k) ++ EQUALS :: value e).
  rewrite (indexOf_app_fresh EQUALS (c :: k) (value e) Heq).
  destruct (Z.of_nat (length (c :: k)) =? -1)%Z eqn:Hd; [apply Z.eqb_eq in Hd; lia|].
  unfold slice, sliceFrom. change (Z.to_nat 0) with 0%nat.
  rewrite Nat.sub_0_r, drop_0, Nat2Z.id, take_app_length.
  replace (Z.to_nat (Z.of_nat (length (c :: k)) + 1)) with (length (c :: k) + 1)%nat by lia.
  rewrite <- drop_drop, drop_app_length. cbn [drop]. rewrite drop_0.
  rewrite (trim_fixed _ Hk), (trim_fixed _ Hv). cbn [nonEmpty negb].
  destruct e as [ke ve]. simpl in *. by subst.
Qed.

Lemma lineEnvVar_normalized (env : list AgentEnvVar) :
  NoDup (key <$> env) -> Forall lineEnvVar env -> normalizedEnv env.
Proof.
  intros Hnd Hall. split; [done|].
  eapply Forall_impl; [exact Hall|]. by intros e (Hne & Hk & _).
Qed.

Lemma parseEnv_lines (value : jsstring) :
  Forall lineEnvVar (omap parseEnvLine (splitLines value)).
Proof.
  apply Forall_forall. intros e (line & Hline & He)%list_elem_of_omap.
  eapply parseEnvLine_Some; [|exact He].
  by apply (proj1 (Forall_forall _ _) (splitLines_pieces value)).
Qed.

Lemma parseEnv_dedupe (value : jsstring) :
  parseEnv value = dedupe ∅ (omap parseEnvLine (splitLines value)).
Proof.
  unfold parseEnv, normalizeEnvVars. rewrite collectPairs_envVarArray.
  f_equal. apply omap_fixed.
  eapply Forall_impl; [apply parseEnv_lines|].
  intros e (Hne & Hk & _). by apply cleanedPair_fixed.
Qed.

(** X7. What [parseEnv] returns has pairwise distinct keys, and every
    pair fits on one [KEY=VALUE] line: the key is non-empty, trimmed and
    holds neither ["="] nor a line feed, the value is trimmed and holds no
    line feed. *)
Theorem parseEnv_clean (value : jsstring) :
  NoDup (key <$> parseEnv value) /\ Forall lineEnvVar (parseEnv value).
Proof.
  rewrite parseEnv_dedupe. split.
  - apply dedupe_NoDup.
  - apply dedupe_Forall, parseEnv_lines.
Qed.

Lemma formatEnv_lines (env : list AgentEnvVar) :
  Forall lineEnvVar env ->
  Forall (fun p => (LF ∉ p) /\ last p <> Some CR)
         (List.map (fun entry => key entry ++ (EQUALS :: value entry)) env).
Proof.
  intros Hall. apply Forall_map. eapply Forall_impl; [exact Hall|].
  intros e (Hne & Hk & _ & Hklf & Hv & Hvlf). simpl. split.
  - rewrite elem_of_app, elem_of_cons. intros [Hin|[Heq|Hin]]; [done| |done].
    discriminate Heq.
  - by apply trimmed_last_not_CR, trimmed_app.
Qed.

Lemma parseEnvLine_formatted (env : list AgentEnvVar) :
  Forall lineEnvVar env ->
  omap parseEnvLine (List.map (fun entry => key entry ++ (EQUALS :: value entry)) env) = env.
Proof.
  induction 1 as [|e env He _ IH]; [done|].
  cbn [List.map]. rewrite omap_cons_case, (parseEnvLine_format e He). by f_equal.
Qed.

Lemma formatted_read_back (env : list AgentEnvVar) :
  Forall lineEnvVar env -> parseEnv (formatEnv env) = dedupe ∅ env.
Proof.
  intros Hall. rewrite parseEnv_dedupe. unfold formatEnv.
  destruct env as [|e env]; [by vm_compute|].
  rewrite splitLines_joinLF; [|done|by apply formatEnv_lines].
  by rewrite (parseEnvLine_formatted _ Hall).
Qed.

(** X8. The "Environment variables" text area round-trips: pairs with
    pairwise distinct keys that each fit on one [KEY=VALUE] line, shown by
    [formatEnv], are read back by [parseEnv] exactly as they were - a
    value may itself hold ["="], the line is cut at the first one. *)
Theorem parseEnv_formatEnv (env : list AgentEnvVar) :
  NoDup (key <$> env) -> Forall lineEnvVar env ->
  parseEnv (formatEnv env) = env.
Proof.
  intros Hnd Hall. rewrite (formatted_read_back env Hall).
  apply dedupe_fresh; [exact Hnd|].
  intros p _. apply not_elem_of_empty.
Qed.

Lemma parseEnv_formatEnv_witness :
  parseEnv (formatEnv [mkEnvVar (lit "PATH") (lit "/usr/bin"); mkEnvVar (lit "OPTS") (lit "a=b")])
  = [mkEnvVar (lit "PATH") (lit "/usr/bin"); mkEnvVar (lit "OPTS") (lit "a=b")].
Proof.
  apply (parseEnv_formatEnv
           [mkEnvVar (lit "PATH") (lit "/usr/bin"); mkEnvVar (lit "OPTS") (lit "a=b")]).
  - refine (bool_decide_unpack _ _). by vm_compute.
  - repeat constructor; try (by vm_compute);
      try (intros c [= <-]; reflexivity);
      refine (bool_decide_unpack _ _); by vm_compute.
Defined.

(** X9. Reading is stable under the text area: showing what [parseEnv]
    returned with [formatEnv] and reading it again gives the same pairs. *)
Theorem parseEnv_stable (value : jsstring) :
  parseEnv (formatEnv (parseEnv value)) = parseEnv value.
Proof.
  rewrite formatted_read_back.
  - rewrite parseEnv_dedupe. apply dedupe_fresh; [apply dedupe_NoDup|].
    intros p _. apply not_elem_of_empty.
  - rewrite parseEnv_dedupe. apply dedupe_Forall, parseEnv_lines.
Qed.

(** ** subagent-service: the frontmatter block *)

(** X10. [parseFrontmatter] returns an object exactly for the contents of
    the form: three dashes at the very start, then white space, a line
    feed, any text, and a line feed followed by three dashes; for every
    other content it returns [null].  The text it parses is such a block
    of the content. *)
Theorem parseFrontmatter_some_iff (content : jsstring) :
  (is_Some (parseFrontmatter content) <-> hasFrontmatter content) /\
  (forall yaml, matchFrontmatter content = Some yaml ->
     exists ws rest,
       content = DASHES ++ ws ++ (LF :: yaml) ++ (LF :: DASHES) ++ rest /\
       Forall (fun c => isWhiteSpace c = true) ws).
Proof.
  assert (Hsound : forall yaml, matchFrontmatter content = Some yaml ->
     exists ws rest,
       content = DASHES ++ ws ++ (LF :: yaml) ++ (LF :: DASHES) ++ rest /\
       Forall (fun c => isWhiteSpace c = true) ws).
  { intros yaml. unfold matchFrontmatter.
    destruct (startsWith DASHES content) eqn:Hstart; [|discriminate].
    apply startsWith_spec in Hstart as [t ->].
    change (drop 3 (DASHES ++ t)) with t.
    intros (ws & rest & -> & Hall)%afterDashes_sound. by exists ws, rest. }
  split; [|exact Hsound]. unfold parseFrontmatter. split.
  - destruct (matchFrontmatter content) as [yaml|] eqn:Hm; [|by intros [? [=]]].
    intros _. destruct (Hsound yaml eq_refl) as (ws & rest & Hc & Hall).
    by exists ws, yaml, rest.
  - intros (ws & body & rest & -> & Hall). unfold matchFrontmatter.
    rewrite (proj2 (startsWith_spec DASHES _)) by (by eexists).
    change (drop 3 (DASHES ++ ?t)) with t.
    destruct (afterDashes_complete ws body rest Hall) as [yaml ->]. by eexists.
Qed.

Lemma assignString_Forall (P : jsstring -> jsstring -> Prop) (k v : jsstring) (obj : gmap jsstring jsstring) :
  (k <> protoName -> P k v) ->
  map_Forall P obj -> map_Forall P (assignString k v obj).
Proof.
  intros Hkv Hobj. unfold assignString.
  destruct (bool_decide (k = protoName)) eqn:Hp; [done|].
  apply bool_decide_eq_false in Hp. apply map_Forall_insert_2; auto.
Qed.

(** X11. In the object [parseFrontmatter] returns, every key and every
    value is trimmed, and there is never an entry under [__proto__]. *)
Theorem parseFrontmatter_trimmed (content : jsstring) :
  match parseFrontmatter content with
  | Some fm => map_Forall (fun k v => trimmed k /\ trimmed v /\ k <> protoName) fm
  | None => True
  end.
Proof.
  unfold parseFrontmatter. destruct (matchFrontmatter content) as [yaml|]; [|done].
  induction (splitLF yaml) as [|line lines IH] using rev_ind.
  - apply map_Forall_empty.
  - rewrite foldl_app. cbn [foldl]. unfold parseLine at 1.
    destruct (0 <? indexOf COLON line)%Z; [|exact IH].
    apply assignString_Forall; [|exact IH].
    intros Hk. split; [apply trim_trimmed|]. split; [apply trim_trimmed|exact Hk].
Qed.

(** ** subagent-service: what is listed *)

Lemma blockValue_trimmed (k yaml v : jsstring) :
  blockValue k yaml = Some v -> trimmed v.
Proof.
  unfold blockValue.
  destruct (List.find _ _) as [kv|] eqn:Hfind; [|discriminate].
  intros [= <-]. apply find_some in Hfind as [Hin _].
  apply in_rev, list_elem_of_In, list_elem_of_omap in Hin as (line & _ & Hline).
  unfold lineEntry in Hline.
  destruct (0 <? indexOf COLON line)%Z; [|discriminate].
  injection Hline as <-. apply trim_trimmed.
Qed.

Lemma agentOfFile_Some (node : Node.t) (agentsDir file : jsstring) (a : SubAgentMetadata.t) :
  agentOfFile node agentsDir file = Some a ->
  SubAgentMetadata.name a <> [] /\ trimmed (SubAgentMetadata.name a) /\
  SubAgentMetadata.description a <> [] /\ trimmed (SubAgentMetadata.description a) /\
  SubAgentMetadata.emoji a = SUBAGENT_EMOJI /\
  SubAgentMetadata.filePath a = Node.join node agentsDir file.
Proof.
  unfold agentOfFile.
  destruct (Node.readFileSync _ _) as [content|]; [|discriminate].
  destruct (matchFrontmatter content) as [yaml|]; [|discriminate].
  destruct (blockValue (lit "name") yaml) as [n|] eqn:Hn; [|discriminate].
  destruct (blockValue (lit "description") yaml) as [d|] eqn:Hd; [|discriminate].
  destruct (nonEmpty n) eqn:Hnn; [|discriminate].
  destruct (nonEmpty d) eqn:Hdn; [|discriminate].
  intros [= <-]. cbn.
  split; [by apply nonEmpty_true|]. split; [by eapply blockValue_trimmed|].
  split; [by apply nonEmpty_true|]. split; [by eapply blockValue_trimmed|done].
Qed.

Lemma readSubAgents_cases (node : Node.t) (agentsDir : jsstring) (files : list jsstring) (acc : list SubAgentMetadata.t) :
  readSubAgents node agentsDir files acc = Thrown \/
  readSubAgents node agentsDir files acc =
    Returned (acc ++ omap (agentOfFile node agentsDir) files).
Proof.
  revert acc. induction files as [|f files IH]; intros acc.
  - right. simpl. by rewrite app_nil_r.
  - cbn [readSubAgents].
    destruct (Node.readFileSync node (Node.join node agentsDir f)) as [content|] eqn:Hf;
      [|by left].
    rewrite (subAgentOf_agentOfFile _ _ _ _ Hf), omap_cons_case.
    destruct (agentOfFile node agentsDir f) as [a|].
    + destruct (IH (acc ++ [a])) as [->| ->]; [by left|right].
      by rewrite <- app_assoc.
    + apply IH.
Qed.

(** What [getSubAgents] returns is empty or the entries of the [.md]
    files of the directory. *)
Lemma getSubAgents_cases (node : Node.t) (agentsDir : jsstring) :
  getSubAgents node agentsDir = Returned [] \/
  exists entries,
    Node.readdirSync node agentsDir = Some entries /\
    getSubAgents node agentsDir =
      Returned (omap (agentOfFile node agentsDir) (List.filter (endsWith (lit ".md")) entries)).
Proof.
  unfold getSubAgents, getSubAgentsTry.
  destruct (Node.existsSync node agentsDir); [|by left]. cbn [negb].
  destruct (Node.readdirSync node agentsDir) as [entries|]; [|by left].
  destruct (readSubAgents_cases node agentsDir (List.filter (endsWith (lit ".md")) entries) [])
    as [->| ->]; [by left|].
  right. by exists entries.
Qed.

Lemma omap_length_le {A B} (f : A -> option B) (l : list A) :
  (length (omap f l) <= length l)%nat.
Proof.
  induction l as [|a l IH]; [done|].
  rewrite omap_cons_case. destruct (f a); simpl; lia.
Qed.

(** X12. Every entry [getSubAgents] returns stands for a [.md] entry of
    the agents directory: its [filePath] is the directory joined with that
    entry, its [name] and [description] are non-empty and trimmed, and its
    emoji is the fixed one.  There are never more entries than [.md]
    files. *)
Theorem getSubAgents_entries (node : Node.t) (agentsDir : jsstring) :
  match getSubAgents node agentsDir with
  | Thrown => False
  | Returned agents =>
      Forall (fun a =>
                SubAgentMetadata.name a <> [] /\ trimmed (SubAgentMetadata.name a) /\
                SubAgentMetadata.description a <> [] /\
                trimmed (SubAgentMetadata.description a) /\
                SubAgentMetadata.emoji a = SUBAGENT_EMOJI /\
                exists entries file,
                  Node.readdirSync node agentsDir = Some entries /\
                  file ∈ entries /\ endsWith (lit ".md") file = true /\
                  SubAgentMetadata.filePath a = Node.join node agentsDir file) agents /\
      forall entries,
        Node.readdirSync node agentsDir = Some entries ->
        (length agents <= length (List.filter (endsWith (lit ".md")) entries))%nat
  end.
Proof.
  destruct (getSubAgents_cases node agentsDir) as [->|(entries & Hdir & ->)].
  - split; [constructor|]. intros entries _. simpl. lia.
  - split.
    + apply Forall_forall. intros a (file & Hfile & Ha)%list_elem_of_omap.
      apply list_elem_of_In, filter_In in Hfile as [Hin%list_elem_of_In Hmd].
      apply agentOfFile_Some in Ha as (H1 & H2 & H3 & H4 & H5 & H6).
      repeat (split; [done|]). by exists entries, file.
    + intros entries' Hdir'. rewrite Hdir in Hdir'. injection Hdir' as <-.
      apply omap_length_le.
Qed.

Lemma readSubAgents_ext (node node' : Node.t) (agentsDir : jsstring) (files : list jsstring) (acc : list SubAgentMetadata.t) :
  (forall file, Node.join node' agentsDir file = Node.join node agentsDir file) ->
  Forall (fun file => Node.readFileSync node' (Node.join node agentsDir file) =
                      Node.readFileSync node (Node.join node agentsDir file)) files ->
  readSubAgents node' agentsDir files acc = readSubAgents node agentsDir files acc.
Proof.
  intros Hjoin Hall. revert acc.
  induction Hall as [|f files Hf _ IH]; intros acc; [done|].
  cbn [readSubAgents]. rewrite Hjoin, Hf.
  destruct (Node.readFileSync node (Node.join node agentsDir f)); [apply IH|done].
Qed.

(** X13. Only the [.md] entries of the directory are ever read: two file
    systems that list the same directory and hold the same content for
    every path made of the directory and an entry ending in [.md] give the
    same sub-agents, whatever else differs between them. *)
Theorem getSubAgents_reads_md_only (node : Node.t) (agentsDir : jsstring) (readFileSync' : jsstring -> option jsstring) :
  (forall file, endsWith (lit ".md") file = true ->
     readFileSync' (Node.join node agentsDir file) =
     Node.readFileSync node (Node.join node agentsDir file)) ->
  getSubAgents
    (Node.mk (Node.existsSync node) (Node.readdirSync node) readFileSync' (Node.join node))
    agentsDir
  = getSubAgents node agentsDir.
Proof.
  intros Hsame. unfold getSubAgents, getSubAgentsTry. cbn [Node.existsSync Node.readdirSync].
  destruct (Node.existsSync node agentsDir); [|done]. cbn [negb].
  destruct (Node.readdirSync node agentsDir) as [entries|]; [|done].
  rewrite (readSubAgents_ext node); [done|done|].
  apply Forall_forall. intros file Hfile.
  apply list_elem_of_In, filter_In in Hfile as [_ Hmd]. by apply Hsame.
Qed.

Lemma endsWith_app (p a s : jsstring) :
  endsWith p s = true -> endsWith p (a ++ s) = true.
Proof.
  unfold endsWith. intros [t Ht]%startsWith_spec.
  apply startsWith_spec. exists (t ++ rev a).
  by rewrite rev_app_distr, Ht, app_assoc.
Qed.

Lemma getSubAgents_reads_md_only_witness :
  getSubAgents
    (Node.mk (Node.existsSync helperNode) (Node.readdirSync helperNode)
             (fun path => if endsWith (lit ".md") path
                          then Node.readFileSync helperNode path
                          else Some (lit "secret"))
             (Node.join helperNode))
    (lit "/home/u/.claude/agents")
  = getSubAgents helperNode (lit "/home/u/.claude/agents").
Proof.
  apply (getSubAgents_reads_md_only helperNode (lit "/home/u/.claude/agents")).
  intros file Hmd. cbn [Node.join helperNode].
  rewrite app_assoc. by rewrite (endsWith_app _ _ _ Hmd).
Defined.

(** ** plugin: what loadSettings hands out *)

Lemma nonEmptyList_id {A} (l : list A) :
  (if nonEmptyList l then l else []) = l.
Proof. by destruct l. Qed.

Lemma trimmed_nil : trimmed [].
Proof. by split. Qed.

(** X14. Whatever was stored, the settings [loadSettings] builds are
    clean: the agent id is the fixed one, the display name is non-empty
    and trimmed, the command and the node path are trimmed, every
    argument is non-empty and trimmed, the environment keys are pairwise
    distinct, non-empty and trimmed - and auto-allow is on only if the
    stored flag is the boolean [true] itself. *)
Theorem loadSettings_sanitizes (data : JSValue) :
  let settings := loadSettings data in
  let claude := AgentClientPluginSettings.claude settings in
  ClaudeAgentSettings.id claude = lit "claude-code-acp" /\
  ClaudeAgentSettings.displayName claude <> [] /\
  trimmed (ClaudeAgentSettings.displayName claude) /\
  trimmed (ClaudeAgentSettings.command claude) /\
  Forall (fun a => a <> [] /\ trimmed a) (ClaudeAgentSettings.args claude) /\
  normalizedEnv (ClaudeAgentSettings.env claude) /\
  trimmed (AgentClientPluginSettings.nodePath settings) /\
  (AgentClientPluginSettings.autoAllowPermissions settings = true <->
   getProp (lit "autoAllowPermissions") data = JBool true).
Proof.
  cbn zeta. split; [done|].
  assert (Hname : forall v, (match nonBlankString v with
                             | Some name => name
                             | None => lit "Claude Code"
                             end) <> [] /\
                            trimmed (match nonBlankString v with
                                     | Some name => name
                                     | None => lit "Claude Code"
                                     end)).
  { intros v. destruct (nonBlankString v) as [name|] eqn:Hv.
    - exact (nonBlankString_Some _ _ Hv).
    - split; [done|]. split; intros c [= <-]; reflexivity. }
  split; [apply Hname|]. split; [apply Hname|].
  split.
  { rewrite loadSettings_command.
    destruct (nonBlankString (getProp (lit "command") (getProp (lit "claude") data)))
      as [cmd|] eqn:Hc; [exact (proj2 (nonBlankString_Some _ _ Hc))|].
    destruct (nonBlankString (getProp (lit "claudeCodeAcpCommandPath") data))
      as [path|] eqn:Hp; [exact (proj2 (nonBlankString_Some _ _ Hp))|apply trimmed_nil]. }
  unfold loadSettings.
  cbn [AgentClientPluginSettings.claude ClaudeAgentSettings.args ClaudeAgentSettings.env
       AgentClientPluginSettings.nodePath AgentClientPluginSettings.autoAllowPermissions].
  rewrite !nonEmptyList_id.
  split; [apply sanitizeArgs_clean|].
  split.
  { unfold normalizeEnvVars. split; [apply dedupe_NoDup|].
    apply dedupe_Forall, collectPairs_keys. }
  rewrite !getProp_rawSettings. split.
  - destruct (getProp (lit "nodePath") data); try apply trimmed_nil. apply trim_trimmed.
  - destruct (getProp (lit "autoAllowPermissions") data) as [| |[|]| | | | | | |];
      simpl; split; congruence.
Qed.

(** X15. Stored data that is not a plain object - nothing, [null], a
    string, a number, an array - is ignored as a whole: [loadSettings]
    gives the default settings. *)
Theorem loadSettings_defaults (data : JSValue) :
  isPlainObject data = false -> loadSettings data = DEFAULT_SETTINGS.
Proof.
  destruct data; intros Hplain; try reflexivity. discriminate Hplain.
Qed.

Lemma loadSettings_defaults_witness :
  loadSettings (JArray [JString (lit "corrupt"); JNull]) = DEFAULT_SETTINGS.
Proof.
  apply (loadSettings_defaults (JArray [JString (lit "corrupt"); JNull])).
  reflexivity.
Defined.

Lemma NoDup_keys_inj (pairs : list AgentEnvVar) (p q : AgentEnvVar) :
  NoDup (key <$> pairs) -> p ∈ pairs -> q ∈ pairs -> key p = key q -> p = q.
Proof.
  induction pairs as [|r pairs IH]; [by intros _ ?%elem_of_nil|].
  rewrite fmap_cons. intros [Hr Hnd]%NoDup_cons Hp Hq Hk.
  apply elem_of_cons in Hp as [->|Hp]; apply elem_of_cons in Hq as [->|Hq].
  - done.
  - exfalso. apply Hr. rewrite Hk. apply list_elem_of_fmap. by exists q.
  - exfalso. apply Hr. rewrite <- Hk. apply list_elem_of_fmap. by exists p.
  - by apply IH.
Qed.

Lemma lastWithKey_NoDup (pairs : list AgentEnvVar) (p : AgentEnvVar) :
  NoDup (key <$> pairs) -> p ∈ pairs -> lastWithKey (key p) pairs = Some p.
Proof.
  intros Hnd Hp. unfold lastWithKey, firstWithKey.
  destruct (List.find _ _) as [q|] eqn:Hfind.
  - apply find_some in Hfind as [Hq%in_rev%list_elem_of_In Hk%bool_decide_eq_true].
    f_equal. by apply (NoDup_keys_inj pairs).
  - apply find_none with (x := p) in Hfind; [|by rewrite <- in_rev, <- list_elem_of_In].
    by apply bool_decide_eq_false in Hfind.
Qed.

Lemma lastWithKey_Some (pairs : list AgentEnvVar) (k : jsstring) (p : AgentEnvVar) :
  lastWithKey k pairs = Some p -> p ∈ pairs /\ key p = k.
Proof.
  unfold lastWithKey, firstWithKey.
  intros [Hp%in_rev%list_elem_of_In Hk%bool_decide_eq_true]%find_some. done.
Qed.

(** X16. From stored data to the process environment: in the config made
    of loaded settings, a name [k] is bound to [v] exactly when [{k, v}]
    is one of the loaded pairs and [k] is not [__proto__]. *)
Theorem loaded_env_reaches_config (data : JSValue) (wd k v : jsstring) :
  let settings := AgentClientPluginSettings.claude (loadSettings data) in
  AgentConfig.env (toAgentConfig (ClaudeAgentSettings.asBase settings) wd) !! k = Some v <->
  k <> protoName /\ mkEnvVar k v ∈ ClaudeAgentSettings.env settings.
Proof.
  cbn zeta.
  set (settings := AgentClientPluginSettings.claude (loadSettings data)).
  assert (Hnd : NoDup (key <$> ClaudeAgentSettings.env settings)).
  { subst settings. unfold loadSettings. cbn [AgentClientPluginSettings.claude ClaudeAgentSettings.env].
    rewrite nonEmptyList_id. apply dedupe_NoDup. }
  destruct (decide (k = protoName)) as [->|Hk].
  - rewrite toAgentConfig_env_no_proto. split; [done|by intros [? _]].
  - rewrite toAgentConfig_env_last_wins by done.
    change (BaseAgentSettings.env (ClaudeAgentSettings.asBase settings))
      with (ClaudeAgentSettings.env settings).
    split.
    + destruct (lastWithKey k _) as [p|] eqn:Hlast; [|discriminate].
      intros [= <-]. apply lastWithKey_Some in Hlast as [Hp <-].
      split; [done|]. by destruct p.
    + intros [_ Hin].
      pose proof (lastWithKey_NoDup _ (mkEnvVar k v) Hnd Hin) as Hlast.
      cbn [key] in Hlast. by rewrite Hlast.
Qed.

(** ** useMentions: the selected suggestion *)

Section MentionsFacts.
Import Mentions.

Variables Agent Note Context : Type.
Variable matchesQuery : Context -> Agent -> bool.

Lemma nonEmptyList_length {A} (l : list A) :
  nonEmptyList l = true -> (0 < length l)%nat.
Proof. destruct l; [discriminate|simpl; lia]. Qed.

(** One call on fresh callbacks, then the render. *)
Lemma invoke_render_selectionInRange (h : Hook Agent Note Context) (call : Call Agent Note Context) :
  rendered _ _ _ h = current _ _ _ h ->
  selectionInRange (current _ _ _ h) ->
  selectionInRange (current _ _ _ (render _ _ _ (invoke _ _ _ matchesQuery h call))).
Proof.
  unfold selectionInRange. destruct h as [st st']. cbn [rendered current render].
  intros -> Hst.
  destruct call as [[ctx|] subAgents notes| |direction|]; cbn [invoke]; try done.
  - unfold updateSuggestions, isOpen. cbn [current suggestions selectedIndex context].
    rewrite andb_true_r.
    destruct (nonEmptyList _) eqn:Hne; [|done].
    apply nonEmptyList_length in Hne. lia.
  - unfold selectSuggestion. cbn [rendered current].
    by destruct (context _ _ _ st) eqn:Hctx.
  - unfold navigate. cbn [rendered current].
    destruct (isOpen _ _ _ st) eqn:Hopen; cbn [negb current].
    + unfold isOpen in *. cbn [suggestions selectedIndex context].
      rewrite Hopen. destruct direction; lia.
    + by rewrite Hopen.
Qed.

Lemma invoke_nonnegative (h : Hook Agent Note Context) (call : Call Agent Note Context) :
  (0 <= selectedIndex _ _ _ (current _ _ _ h))%Z ->
  (0 <= selectedIndex _ _ _ (current _ _ _ (invoke _ _ _ matchesQuery h call)))%Z.
Proof.
  intros Hh. destruct call as [[ctx|] subAgents notes| |direction|]; cbn [invoke]; try done.
  - unfold selectSuggestion. by destruct (context _ _ _ (rendered _ _ _ h)).
  - unfold navigate. destruct (isOpen _ _ _ (rendered _ _ _ h)) eqn:Hopen; [|done].
    cbn [negb current selectedIndex].
    apply andb_true_iff in Hopen as [Hne%nonEmptyList_length _].
    destruct direction; lia.
Qed.

(** X17. If every call on the hook - update, select, navigate up or down,
    close - is made on the callbacks of the latest render, then after any
    number of calls the selected index is the index of an existing
    suggestion whenever the dropdown is open, and is zero whenever it is
    closed: [navigate] stops at both ends.  Whatever callbacks are used,
    stale ones included, the selected index never becomes negative. *)
Theorem mentions_selection_in_range (calls : list (Call Agent Note Context)) (events : list (Event Agent Note Context)) :
  (let st := current _ _ _ (after _ _ _ matchesQuery (mount _ _ _) (eachRendered _ _ _ calls)) in
   if isOpen _ _ _ st
   then (0 <= selectedIndex _ _ _ st < Z.of_nat (length (suggestions _ _ _ st)))%Z
   else selectedIndex _ _ _ st = 0%Z) /\
  (0 <= selectedIndex _ _ _ (current _ _ _ (after _ _ _ matchesQuery (mount _ _ _) events)))%Z.
Proof.
  split.
  - cbn zeta.
    change (selectionInRange
              (current _ _ _ (after _ _ _ matchesQuery (mount _ _ _) (eachRendered _ _ _ calls)))).
    assert (Hinit : rendered _ _ _ (mount Agent Note Context) = current _ _ _ (mount _ _ _) /\
                    selectionInRange (current _ _ _ (mount Agent Note Context))) by done.
    revert Hinit. generalize (mount Agent Note Context).
    induction calls as [|call calls IH]; intros h [Hfresh Hh]; [done|].
    apply IH. split; [done|]. by apply invoke_render_selectionInRange.
  - assert (Hinit : (0 <= selectedIndex _ _ _ (current _ _ _ (mount Agent Note Context)))%Z)
      by done.
    revert Hinit. generalize (mount Agent Note Context).
    induction events as [|e events IH]; intros h Hh; [done|].
    apply IH. destruct e as [call|]; [by apply invoke_nonnegative|done].
Qed.

End MentionsFacts.

(** On stale callbacks the bound is lost: with two suggestions shown,
    [close()] and then [navigate("down")] on the callbacks of one render
    leave the selected index at 1 with the dropdown closed. *)
Lemma mentions_stale_navigate :
  let h := Mentions.after unit unit unit (fun _ _ => true) (Mentions.mount _ _ _)
             [Mentions.Invoke _ _ _ (Mentions.UpdateSuggestions _ _ _ (Some tt) [tt; tt] []);
              Mentions.Render _ _ _;
              Mentions.Invoke _ _ _ (Mentions.Close _ _ _);
              Mentions.Invoke _ _ _ (Mentions.Navigate _ _ _ Mentions.Down)] in
  Mentions.isOpen _ _ _ (Mentions.current _ _ _ h) = false /\
  Mentions.selectedIndex _ _ _ (Mentions.current _ _ _ h) = 1%Z.
Proof. by vm_compute. Qed.
